(** * The MIME signature tree of [mimetype] (file [mime.go])

    A shallow embedding of the [MIME] node type and of the operations
    [Is], [newMIME], [alias], [match], [flatten], [clone],
    [cloneHierarchy], [lookup] and [Extend], over an explicit heap: Go
    pointers [*MIME], map values and slices are references into three
    stores, so that sharing between the canonical tree and the results
    handed to callers can be stated.  [Type], [Extension] and [Parent]
    are field reads.  [String] hands the type and the parameters to
    [mime.FormatMediaType] of the standard library and is left out. *)

From Stdlib Require Import ZArith Lia.
From Stdlib.Strings Require Import Byte Ascii.
From stdpp Require Import base option list strings gmap fin_maps.

Set Default Proof Using "Type".

(** ** Values *)

(** [types.TYPE] is a string type. *)
Definition TYPE := string.

(** A heap address.  The nil pointer, the nil map and the nil slice are
    [None] at type [option loc]. *)
Definition loc := positive.

(** [magic.Detector]: the raw input and the read limit (a [uint32], kept
    as an integer: the code only passes it on). *)
Definition Detector := list byte → Z → bool.

(** ** Outcomes

    [Panic] is a Go run-time panic (nil dereference, call of a nil
    function, write to a nil map, unlock of an unlocked mutex).
    [Diverge] is a call that does not return: the fuel of a loop or of a
    recursion ran out, or the call blocks on the mutex. *)
Inductive outcome (A : Type) : Type :=
  | Done (a : A)
  | Panic
  | Diverge.
Arguments Done {A} a.
Arguments Panic {A}.
Arguments Diverge {A}.

#[global] Instance outcome_ret : MRet outcome := λ A a, Done a.
#[global] Instance outcome_bind : MBind outcome := λ A B f o,
  match o with
  | Done a => f a
  | Panic => Panic
  | Diverge => Diverge
  end.

(** ** The node and the heap *)

Record MIME := mkMIME {
  typ : TYPE;
  aliases : list string;      (* []string, never written through: by value *)
  params : option loc;        (* map[string]string: a reference *)
  extension : string;
  detector : option Detector; (* a func value, possibly nil *)
  children : option loc;      (* []*MIME: a reference to its array *)
  parent : option loc         (* *MIME *)
}.

Record heap := mkHeap {
  nodes : gmap loc MIME;
  maps : gmap loc (gmap string string);
  arrays : gmap loc (list loc);
  mu : bool  (* the package mutex [mu]: true while it is held *)
}.

Definition empty_heap : heap := mkHeap ∅ ∅ ∅ false.

(** What one operation does besides allocating, in order: the calls of
    detectors and sniffers, the operations on the mutex, and the
    assignment to a [children] field, which records whether the mutex is
    held when it happens. *)
Inductive event :=
  | EDetect (c : loc) (raw : list byte) (limit : Z)
  | ECharset (t : TYPE) (raw : list byte)
  | ELock
  | EStoreChildren (m : loc) (a : loc) (locked : bool)
  | EUnlock.

(** Dereference of a [*MIME]. *)
Definition load (h : heap) (m : loc) : outcome MIME :=
  match nodes h !! m with
  | Some n => Done n
  | None => Panic
  end.

(** The entries of a map value: a nil map reads as the empty map. *)
Definition map_of (h : heap) (p : option loc) : gmap string string :=
  match p with
  | Some a => default ∅ (maps h !! a)
  | None => ∅
  end.

(** The elements of a slice: a nil slice has none. *)
Definition slice_of (h : heap) (s : option loc) : list loc :=
  match s with
  | Some a => default [] (arrays h !! a)
  | None => []
  end.

Definition alloc_node (h : heap) (n : MIME) : loc * heap :=
  let l := fresh (dom (nodes h)) in
  (l, mkHeap (<[l:=n]> (nodes h)) (maps h) (arrays h) (mu h)).

Definition alloc_map (h : heap) (ps : gmap string string) : loc * heap :=
  let l := fresh (dom (maps h)) in
  (l, mkHeap (nodes h) (<[l:=ps]> (maps h)) (arrays h) (mu h)).

Definition alloc_array (h : heap) (cs : list loc) : loc * heap :=
  let l := fresh (dom (arrays h)) in
  (l, mkHeap (nodes h) (maps h) (<[l:=cs]> (arrays h)) (mu h)).

(** Assignment to a field of the node at [m]. *)
Definition store (h : heap) (m : loc) (f : MIME → MIME) : outcome heap :=
  n ← load h m;
  Done (mkHeap (<[m:=f n]> (nodes h)) (maps h) (arrays h) (mu h)).

Definition with_parent (p : option loc) (n : MIME) : MIME :=
  mkMIME (typ n) (aliases n) (params n) (extension n) (detector n)
         (children n) p.

Definition with_children (c : option loc) (n : MIME) : MIME :=
  mkMIME (typ n) (aliases n) (params n) (extension n) (detector n)
         c (parent n).

Definition with_aliases (als : list string) (n : MIME) : MIME :=
  mkMIME (typ n) als (params n) (extension n) (detector n)
         (children n) (parent n).

(** [for k, v := range src { dst[k] = v }] *)
Definition range_insert (src dst : gmap string string) : gmap string string :=
  map_fold (λ k v acc, <[k:=v]> acc) dst src.

(** The Go statement [r.params[k] = v]. *)
Definition set_param (h : heap) (r : loc) (k v : string) : outcome heap :=
  n ← load h r;
  match params n with
  | None => Panic
  | Some a =>
      Done (mkHeap (nodes h) (<[a := <[k:=v]> (map_of h (Some a))]> (maps h))
                   (arrays h) (mu h))
  end.

(** ** Imported packages

    [mime.ParseMediaType] of the Go standard library, the constants of
    package [types] and the charset sniffers of package [charset] are
    not part of this file: the operations take them as parameters. *)

(** The three results of [mime.ParseMediaType]. *)
Record media := mkMedia {
  mediatype : string;
  mparams : option (gmap string string);
  merr : bool  (* err != nil *)
}.

Class Imports := {
  ParseMediaType : string → media;
  TEXT : TYPE;
  HTML : TYPE;
  XML : TYPE;
  FromPlain : list byte → string;
  FromHTML : list byte → string;
  FromXML : list byte → string
}.

Section mime.
Context `{Imports}.

(** ** [Is] *)
Definition Is (m : MIME) (expectedMIME : string) : bool :=
  let expectedMIME := mediatype (ParseMediaType expectedMIME) in
  if String.eqb expectedMIME (typ m) then true
  else existsb (λ alias, String.eqb alias expectedMIME) (aliases m).

(** ** [newMIME] and [alias]

    The variadic [children] arrive as a slice: nil when there are none,
    otherwise an array made at the call. *)
Fixpoint adopt (h : heap) (m : loc) (cs : list loc) : outcome heap :=
  match cs with
  | [] => Done h
  | c :: cs' => h' ← store h c (with_parent (Some m)); adopt h' m cs'
  end.

Definition newMIME (h : heap) (t : TYPE) (ext : string)
    (det : option Detector) (cs : list loc) : outcome (loc * heap) :=
  let '(pa, h1) := alloc_map h ∅ in
  let '(sl, h2) :=
    match cs with
    | [] => (None, h1)
    | _ => let '(a, h') := alloc_array h1 cs in (Some a, h')
    end in
  let '(m, h3) := alloc_node h2 (mkMIME t [] (Some pa) ext det sl None) in
  h4 ← adopt h3 m cs;
  Done (m, h4).

Definition alias (h : heap) (m : loc) (als : list string) : outcome (loc * heap) :=
  h' ← store h m (with_aliases als);
  Done (m, h').

(** ** [clone] and [cloneHierarchy] *)
Definition clone (h : heap) (m : loc) (ps : option (gmap string string))
    : outcome (loc * heap) :=
  n ← load h m;
  let mp := range_insert (map_of h (params n)) ∅ in
  let mp := range_insert (default ∅ ps) mp in
  let '(pa, h1) := alloc_map h mp in
  Done (alloc_node h1
          (mkMIME (typ n) (aliases n) (Some pa) (extension n) None None None)).

(** [Parent]: a field read through the pointer. *)
Definition Parent (h : heap) (m : loc) : outcome (option loc) :=
  n ← load h m; Done (parent n).

(** The loop [for p := m.Parent(); p != nil; p = p.Parent()]. *)
Fixpoint cloneParents (fuel : nat) (h : heap) (p : option loc)
    (lastChild : loc) : outcome heap :=
  match p with
  | None => Done h
  | Some pa =>
      match fuel with
      | O => Diverge
      | S fuel' =>
          '(pClone, h1) ← clone h pa None;
          h2 ← store h1 lastChild (with_parent (Some pClone));
          p' ← Parent h2 pa;
          cloneParents fuel' h2 p' pClone
      end
  end.

Definition cloneHierarchy (fuel : nat) (h : heap) (m : loc)
    (ps : option (gmap string string)) : outcome (loc * heap) :=
  '(ret, h1) ← clone h m ps;
  p ← Parent h1 m;
  h2 ← cloneParents fuel h1 p ret;
  Done (ret, h2).

(** ** [match] *)
Definition needsCharset : gmap TYPE (list byte → string) :=
  <[XML := FromXML]> (<[HTML := FromHTML]> (<[TEXT := FromPlain]> ∅)).

(** The optional parameters [ps] that [match] computes for the node it
    stops at, and the sniffer call this makes. *)
Definition sniff (t : TYPE) (raw : list byte)
    : gmap string string * list event :=
  match needsCharset !! t with
  | Some f =>
      let cset := f raw in
      (if String.eqb cset EmptyString then ∅ else <["charset" := cset]> ∅,
       [ECharset t raw])
  | None => (∅, [])
  end.

(** The part of [match] after the loop over the children. *)
Definition finish (fuel : nat) (h : heap) (m : loc) (n : MIME)
    (raw : list byte) : outcome (loc * heap * list event) :=
  let '(ps, tr) := sniff (typ n) raw in
  '(r, h') ← cloneHierarchy fuel h m (Some ps);
  Done (r, h', tr).

Definition logged (e : event) (o : outcome (loc * heap * list event))
    : outcome (loc * heap * list event) :=
  '(r, h', tr) ← o; Done (r, h', e :: tr).

(** The loop over the children: [descend c] is [c.match(in, readLimit)]
    and [fallthrough] is what follows the loop. *)
Fixpoint match_children (descend : loc → outcome (loc * heap * list event))
    (fallthrough : outcome (loc * heap * list event))
    (h : heap) (raw : list byte) (readLimit : Z) (cs : list loc)
    : outcome (loc * heap * list event) :=
  match cs with
  | [] => fallthrough
  | c :: cs' =>
      cn ← load h c;
      match detector cn with
      | None => Panic
      | Some d =>
          logged (EDetect c raw readLimit)
            (if d raw readLimit then descend c
             else match_children descend fallthrough h raw readLimit cs')
      end
  end.

Fixpoint match_ (fuel : nat) (h : heap) (m : loc) (raw : list byte)
    (readLimit : Z) : outcome (loc * heap * list event) :=
  match fuel with
  | O => Diverge
  | S fuel' =>
      n ← load h m;
      match_children (λ c, match_ fuel' h c raw readLimit)
        (finish fuel' h m n raw) h raw readLimit (slice_of h (children n))
  end.

(** ** [Extend] *)
Definition Lock (h : heap) : outcome (heap * event) :=
  if mu h then Diverge
  else Done (mkHeap (nodes h) (maps h) (arrays h) true, ELock).

Definition Unlock (h : heap) : outcome (heap * event) :=
  if mu h then Done (mkHeap (nodes h) (maps h) (arrays h) false, EUnlock)
  else Panic.

(** The assignment [m.children = s] for a slice [s] over the array [a]. *)
Definition store_children (h : heap) (m a : loc) : outcome (heap * event) :=
  h' ← store h m (with_children (Some a));
  Done (h', EStoreChildren m a (mu h)).

Definition Extend (h : heap) (m : loc) (det : option Detector)
    (mimestr ext : string) (als : list string) : outcome (heap * list event) :=
  let parsed := ParseMediaType mimestr in
  let '(ps, h1) :=
    match mparams parsed with
    | Some mp => let '(pa, h') := alloc_map h mp in (Some pa, h')
    | None => (None, h)
    end in
  let '(c, h2) :=
    alloc_node h1 (mkMIME (mediatype parsed) als ps ext det None (Some m)) in
  '(h3, e1) ← Lock h2;
  n ← load h3 m;
  let '(a, h4) := alloc_array h3 (c :: slice_of h3 (children n)) in
  '(h5, e2) ← store_children h4 m a;
  '(h6, e3) ← Unlock h5;
  Done (h6, [e1; e2; e3]).

End mime.

(** ** [flatten] and [lookup]

    Neither calls an imported package.  The slice that [flatten] returns
    is made by the call and is kept by value.  [lookup] ranges over
    [append(m.aliases, string(m.typ))]: the aliases, then the type.
    Where the alias slice has spare capacity this [append] writes the
    type behind the last alias, which no reader of [m.aliases] sees;
    with the aliases kept by value that write has no counterpart here. *)

(** The loop [for _, c := range m.children] of [flatten]: [rec c] is
    [c.flatten()] and [out] the slice built so far. *)
Fixpoint flatten_children (rec : loc → outcome (list loc)) (out : list loc)
    (cs : list loc) : outcome (list loc) :=
  match cs with
  | [] => Done out
  | c :: cs' => l ← rec c; flatten_children rec (out ++ l) cs'
  end.

Fixpoint flatten (fuel : nat) (h : heap) (m : loc) : outcome (list loc) :=
  match fuel with
  | O => Diverge
  | S fuel' =>
      n ← load h m;
      flatten_children (flatten fuel' h) [m] (slice_of h (children n))
  end.

(** The loop [for _, c := range m.children] of [lookup]: the first
    child whose [lookup] is not nil decides. *)
Fixpoint lookup_children (rec : loc → outcome (option loc)) (cs : list loc)
    : outcome (option loc) :=
  match cs with
  | [] => Done None
  | c :: cs' =>
      r ← rec c;
      match r with
      | Some x => Done (Some x)
      | None => lookup_children rec cs'
      end
  end.

Fixpoint lookup (fuel : nat) (h : heap) (m : loc) (t : string)
    : outcome (option loc) :=
  match fuel with
  | O => Diverge
  | S fuel' =>
      n ← load h m;
      if existsb (λ name, String.eqb name t) (aliases n ++ [typ n])
      then Done (Some m)
      else lookup_children (λ c, lookup fuel' h c t) (slice_of h (children n))
  end.

(** ** A reference instance of the imported packages

    [GoMime.ParseMediaType] follows the algorithm of the standard
    library's [mime.ParseMediaType] on ASCII input: the text before the
    first semicolon is lower-cased and trimmed and must be a token or
    token/token; then come the parameters [; name=value].  Parameters
    whose name contains a star (RFC 2231 continuations, which the
    library stitches together) are kept under their literal name, and
    bytes above 127 are neither letters nor spaces.  The concrete
    examples below instantiate the imports with it; the general
    statements hold for every instance. *)
Module GoMime.

Definition isSpace (c : ascii) : bool :=
  let n := nat_of_ascii c in
  ((9 <=? n) && (n <=? 13)) || (n =? 32).

Fixpoint ContainsRune (s : string) (c : ascii) : bool :=
  match s with
  | EmptyString => false
  | String d s' => Ascii.eqb c d || ContainsRune s' c
  end.

Definition isTSpecial (c : ascii) : bool :=
  ContainsRune (String "034" "()<>@,;:\/[]?=") c.

Definition isTokenChar (c : ascii) : bool :=
  let n := nat_of_ascii c in
  (32 <? n) && (n <? 127) && negb (isTSpecial c).

Definition lower (c : ascii) : ascii :=
  let n := nat_of_ascii c in
  if (65 <=? n) && (n <=? 90) then ascii_of_nat (n + 32) else c.

Fixpoint ToLower (s : string) : string :=
  match s with
  | EmptyString => EmptyString
  | String c s' => String (lower c) (ToLower s')
  end.

(** The longest prefix whose bytes satisfy [p], and what follows it. *)
Fixpoint span (p : ascii → bool) (s : string) : string * string :=
  match s with
  | EmptyString => (EmptyString, EmptyString)
  | String c s' =>
      if p c then let '(a, b) := span p s' in (String c a, b)
      else (EmptyString, s)
  end.

Definition TrimLeft (s : string) : string := snd (span isSpace s).

Fixpoint TrimRight (s : string) : string :=
  match s with
  | EmptyString => EmptyString
  | String c s' =>
      match TrimRight s' with
      | EmptyString => if isSpace c then EmptyString else String c EmptyString
      | t => String c t
      end
  end.

Definition TrimSpace (s : string) : string := TrimRight (TrimLeft s).

Definition consumeToken (v : string) : string * string := span isTokenChar v.

Definition checkMediaTypeDisposition (s : string) : bool :=
  let '(t, rest) := consumeToken s in
  match t, rest with
  | EmptyString, _ => false
  | _, EmptyString => true
  | _, String c rest' =>
      if Ascii.eqb c "/" then
        let '(subtype, rest'') := consumeToken rest' in
        match subtype, rest'' with
        | EmptyString, _ => false
        | _, EmptyString => true
        | _, _ => false
        end
      else false
  end.

(** The body of a quoted string, after the opening quote. *)
Fixpoint quoted (s : string) : option (string * string) :=
  match s with
  | EmptyString => None
  | String c s' =>
      if Ascii.eqb c "034" then Some (EmptyString, s')
      else
        match s' with
        | String e s'' =>
            if Ascii.eqb c "\" && isTSpecial e then
              '(b, r) ← quoted s''; Some (String e b, r)
            else if Ascii.eqb c "013" || Ascii.eqb c "010" then None
            else '(b, r) ← quoted s'; Some (String c b, r)
        | EmptyString =>
            if Ascii.eqb c "013" || Ascii.eqb c "010" then None
            else '(b, r) ← quoted s'; Some (String c b, r)
        end
  end.

Definition consumeValue (v : string) : string * string :=
  match v with
  | EmptyString => (EmptyString, EmptyString)
  | String c v' =>
      if Ascii.eqb c "034" then default (EmptyString, v) (quoted v')
      else consumeToken v
  end.

Definition consumeMediaParam (v : string) : string * string * string :=
  let fail := (EmptyString, EmptyString, v) in
  match TrimLeft v with
  | String ";" rest =>
      let '(param, rest) := consumeToken (TrimLeft rest) in
      let param := ToLower param in
      match param with
      | EmptyString => fail
      | _ =>
          match TrimLeft rest with
          | String "=" rest =>
              let rest := TrimLeft rest in
              let '(value, rest2) := consumeValue rest in
              match value with
              | EmptyString =>
                  if String.eqb rest2 rest then fail else (param, value, rest2)
              | _ => (param, value, rest2)
              end
          | _ => fail
          end
      end
  | _ => fail
  end.

Fixpoint parseParams (fuel : nat) (mt : string) (v : string)
    (ps : gmap string string) : media :=
  match TrimLeft v with
  | EmptyString => mkMedia mt (Some ps) false
  | v =>
      match fuel with
      | O => mkMedia mt None true
      | S fuel' =>
          let '(key, value, rest) := consumeMediaParam v in
          match key with
          | EmptyString =>
              if String.eqb (TrimSpace rest) ";" then mkMedia mt (Some ps) false
              else mkMedia mt None true
          | _ =>
              match ps !! key with
              | Some old =>
                  if String.eqb old value then parseParams fuel' mt rest ps
                  else mkMedia EmptyString None true
              | None => parseParams fuel' mt rest (<[key:=value]> ps)
              end
          end
      end
  end.

Definition ParseMediaType (v : string) : media :=
  let '(base, rest) := span (λ c, negb (Ascii.eqb c ";")) v in
  let mt := TrimSpace (ToLower base) in
  if checkMediaTypeDisposition mt then parseParams (String.length rest) mt rest ∅
  else mkMedia EmptyString None true.

(** Stand-ins for the sniffers of package [charset]: they recognise the
    UTF-8 byte-order mark and nothing else; the concrete examples use
    them on a buffer that starts with the mark and on the empty buffer,
    where they return the empty label. *)
Definition bom (raw : list byte) : string :=
  match raw with
  | xef :: xbb :: xbf :: _ => "utf-8"
  | _ => EmptyString
  end.

#[export] Instance imports : Imports :=
  Build_Imports ParseMediaType "text/plain" "text/html" "text/xml" bom bom bom.

End GoMime.


(** ** Specification vocabulary *)

(** [h ⊑ h'] when [h'] has every object of [h], unchanged. *)
#[global] Instance heap_incl : SqSubsetEq heap := λ h h',
  nodes h ⊆ nodes h' ∧ maps h ⊆ maps h' ∧ arrays h ⊆ arrays h'.

(** A map or slice reference that is nil or allocated. *)
Definition closed_map (h : heap) (p : option loc) : bool :=
  match p with
  | Some a => bool_decide (is_Some (maps h !! a))
  | None => true
  end.

Definition closed_slice (h : heap) (s : option loc) : bool :=
  match s with
  | Some a => bool_decide (is_Some (arrays h !! a))
  | None => true
  end.

Definition has_detector (h : heap) (c : loc) : bool :=
  match nodes h !! c with
  | Some cn => bool_decide (is_Some (detector cn))
  | None => false
  end.

(** [tree_ok d h par m]: below [m] the heap holds a tree of height at
    most [d] whose nodes point back to their parent ([par] for [m]
    itself) and whose nodes other than [m] have a detector.  This is the
    shape [newMIME] and [Extend] build. *)
Fixpoint tree_ok (d : nat) (h : heap) (par : option loc) (m : loc) : bool :=
  match d with
  | O => false
  | S d' =>
      match nodes h !! m with
      | None => false
      | Some n =>
          bool_decide (parent n = par)
          && closed_map h (params n)
          && closed_slice h (children n)
          && forallb (λ c, has_detector h c && tree_ok d' h (Some m) c)
               (slice_of h (children n))
      end
  end.

(** The nodes met by following [Parent()] from [p] up to nil. *)
Inductive lineage (h : heap) : option loc → list loc → Prop :=
  | lineage_nil : lineage h None []
  | lineage_cons p n l :
      nodes h !! p = Some n →
      closed_map h (params n) = true →
      lineage h (parent n) l →
      lineage h (Some p) (p :: l).

Definition accepts (h : heap) (raw : list byte) (lim : Z) (c : loc) : Prop :=
  ∃ cn d, nodes h !! c = Some cn ∧ detector cn = Some d ∧ d raw lim = true.

Definition rejects (h : heap) (raw : list byte) (lim : Z) (c : loc) : Prop :=
  ∃ cn d, nodes h !! c = Some cn ∧ detector cn = Some d ∧ d raw lim = false.

(** Depth-first first-match descent, as the specification words it:
    [descent h raw lim m tested t] when starting at [m] the descent stops
    at [t], having tested the detectors of [tested], in this order. *)
Inductive descent (h : heap) (raw : list byte) (lim : Z)
    : loc → list loc → loc → Prop :=
  | descent_stop m n :
      nodes h !! m = Some n →
      Forall (rejects h raw lim) (slice_of h (children n)) →
      descent h raw lim m (slice_of h (children n)) m
  | descent_step m n before c after tested t :
      nodes h !! m = Some n →
      slice_of h (children n) = before ++ c :: after →
      Forall (rejects h raw lim) before →
      accepts h raw lim c →
      descent h raw lim c tested t →
      descent h raw lim m (before ++ c :: tested) t.

(** [cloned h0 h h' p rp]: in [h'] the reference [rp] heads a chain of
    nodes, none of them in [h], that copies the lineage of [p] in [h0]
    node by node, each with a map of its own. *)
Inductive cloned (h0 h h' : heap) : option loc → option loc → Prop :=
  | cloned_nil : cloned h0 h h' None None
  | cloned_cons p n r a rp :
      nodes h0 !! p = Some n →
      nodes h !! r = None →
      maps h !! a = None →
      nodes h' !! r =
        Some (mkMIME (typ n) (aliases n) (Some a) (extension n) None None rp) →
      maps h' !! a = Some (map_of h0 (params n)) →
      cloned h0 h h' (parent n) rp →
      cloned h0 h h' (Some p) (Some r).

(** [result_of h0 h h' t r ps]: in [h'] the node [r], which is not in
    [h], copies the type, aliases and extension of node [t] of [h0]; its
    map, not in [h] either, holds the parameters of [t] overlaid with
    [ps]; and its parents copy the lineage of [t]. *)
Definition result_of (h0 h h' : heap) (t r : loc)
    (ps : gmap string string) : Prop :=
  ∃ n a rp,
    nodes h0 !! t = Some n ∧
    nodes h !! r = None ∧
    maps h !! a = None ∧
    nodes h' !! r =
      Some (mkMIME (typ n) (aliases n) (Some a) (extension n) None None rp) ∧
    maps h' !! a = Some (ps ∪ map_of h0 (params n)) ∧
    cloned h0 h h' (parent n) rp.

(** [copies h0 h h' p r extra]: the node [r] of [h'] is a copy of the
    node [p] of [h0] that is not in [h]: same type, aliases and extension,
    no detector, no children, and a map of its own, not in [h], holding
    the parameters of [p] overlaid with [extra]. *)
Definition copies (h0 h h' : heap) (extra : gmap string string)
    (p r : loc) : Prop :=
  ∃ n nr a,
    nodes h0 !! p = Some n ∧ nodes h' !! r = Some nr ∧
    nodes h !! r = None ∧ maps h !! a = None ∧
    typ nr = typ n ∧ aliases nr = aliases n ∧ extension nr = extension n ∧
    detector nr = None ∧ children nr = None ∧
    params nr = Some a ∧
    maps h' !! a = Some (extra ∪ map_of h0 (params n)).

(** What a caller can read from the result [r]: [Type()], the aliases,
    the parameters and [Extension()]. *)
Definition view (h : heap) (r : loc)
    : outcome (TYPE * list string * gmap string string * string) :=
  n ← load h r;
  Done (typ n, aliases n, map_of h (params n), extension n).

Definition view_of (o : outcome (loc * heap * list event))
    : outcome (TYPE * list string * gmap string string * string) :=
  '(r, h', _) ← o; view h' r.

(** The caller's loop [for p := r; p != nil; p = p.Parent()], collecting
    the nodes it visits. *)
Fixpoint ancestors (fuel : nat) (h : heap) (r : loc) : outcome (list loc) :=
  match fuel with
  | O => Diverge
  | S fuel' =>
      p ← Parent h r;
      match p with
      | None => Done [r]
      | Some q => l ← ancestors fuel' h q; Done (r :: l)
      end
  end.

Definition detections (raw : list byte) (lim : Z) (cs : list loc) : list event :=
  (λ c, EDetect c raw lim) <$> cs.

(** [below h m x]: the node [x] is [m] or is reached from [m] through
    [children] fields. *)
Inductive below (h : heap) : loc → loc → Prop :=
  | below_here m : below h m m
  | below_child m n c x :
      nodes h !! m = Some n →
      c ∈ slice_of h (children n) →
      below h c x →
      below h m x.

(** The node at [x] carries the name [t], as an alias or as its type:
    the test [lookup] makes at each node. *)
Definition named (h : heap) (t : string) (x : loc) : bool :=
  match nodes h !! x with
  | Some n => existsb (λ name, String.eqb name t) (aliases n ++ [typ n])
  | None => false
  end.

(** No node of the tree below [m] lists a child twice. *)
Fixpoint distinct_children (d : nat) (h : heap) (m : loc) : bool :=
  match d with
  | O => false
  | S d' =>
      match nodes h !! m with
      | None => false
      | Some n =>
          bool_decide (NoDup (slice_of h (children n)))
          && forallb (distinct_children d' h) (slice_of h (children n))
      end
  end.

(** The nodes of a tree of height at most [d], a node before its
    children and the children in list order. *)
Fixpoint preorder (d : nat) (h : heap) (m : loc) : list loc :=
  match d with
  | O => []
  | S d' =>
      match nodes h !! m with
      | None => []
      | Some n => m :: (slice_of h (children n) ≫= preorder d' h)
      end
  end.

(** [Type()] through a pointer that may dangle. *)
Definition type_at (h : heap) (x : loc) : option TYPE := typ <$> nodes h !! x.

(** ** A small tree *)
Definition always : Detector := λ _ _, true.
Definition never : Detector := λ _ _, false.

Section demo.
Import GoMime.

Definition demo : outcome (loc * heap) :=
  '(html, h) ← newMIME empty_heap "text/html" ".html" (Some never) [];
  '(jsn, h) ← newMIME h "application/json" ".json" (Some always) [];
  '(txt, h) ← newMIME h "text/plain" ".txt" (Some always) [html; jsn];
  '(zip, h) ← newMIME h "application/zip" ".zip" (Some never) [];
  newMIME h "application/octet-stream" EmptyString (Some always) [zip; txt].

Definition demo_root : loc :=
  match demo with Done (m, _) => m | _ => 1%positive end.
Definition demo_heap : heap :=
  match demo with Done (_, h) => h | _ => empty_heap end.

End demo.

(** ** The specification's wording, where it is compared with the code *)

Section stated.
Context `{Imports}.

(** The sniffer registered for a type family. *)
Definition family_sniffer (t : TYPE) : option (list byte → string) :=
  if decide (t = TEXT) then Some FromPlain
  else if decide (t = HTML) then Some FromHTML
  else if decide (t = XML) then Some FromXML
  else None.

(** The charset rule as stated, for one returned match: for a node of
    one of the three families the result has the sniffed label under
    "charset", or no "charset" key when the label is empty; for a node
    of any other type it has no "charset" key. *)
Definition stated_charset_rule (h : heap) (root : loc) (raw : list byte)
    (lim : Z) (fuel : nat) : Prop :=
  ∀ r h' tr nr,
    match_ fuel h root raw lim = Done (r, h', tr) →
    nodes h' !! r = Some nr →
    map_of h' (params nr) !! "charset" =
      match family_sniffer (typ nr) with
      | Some f => if String.eqb (f raw) EmptyString then None else Some (f raw)
      | None => None
      end.

(** [Is] with the fallback as stated: the string as given is compared
    when it does not parse. *)
Definition stated_Is (m : MIME) (expected : string) : bool :=
  let parsed := ParseMediaType expected in
  let e := if merr parsed then expected else mediatype parsed in
  if String.eqb e (typ m) then true
  else existsb (λ alias, String.eqb alias e) (aliases m).

End stated.

(** ** Two extensions of the small tree *)
Section custom.
Import GoMime.

Definition starts_with (b : byte) : Detector := λ raw _,
  match raw with
  | b' :: _ => Byte.eqb b b'
  | [] => false
  end.

Definition is_empty : Detector := λ raw _,
  match raw with
  | [] => true
  | _ => false
  end.

(** The small tree with two types registered together with a charset
    parameter: a binary one for buffers that start with the letter x,
    and a text one for the empty buffer. *)
Definition custom : outcome (heap * list event) :=
  '(h, _) ← Extend demo_heap demo_root (Some (starts_with x78))
              "application/x-custom; charset=binary" ".bin" [];
  Extend h demo_root (Some is_empty) "text/plain; charset=utf-8" ".txt" [].

Definition custom_heap : heap :=
  match custom with Done (h, _) => h | _ => empty_heap end.

(** The small tree with a text type put in front at the root, for the
    empty buffer and for buffers that start with the byte EF. *)
Definition texty : outcome (heap * list event) :=
  Extend demo_heap demo_root
    (Some (λ raw lim, is_empty raw lim || starts_with xef raw lim))
    "Text/Plain" ".txt" ["text/x-plain"].

Definition texty_heap : heap :=
  match texty with Done (h, _) => h | _ => empty_heap end.

(** The small tree with a type that accepts every buffer put in front
    at the root, whose first child rejects and whose second accepts. *)
Definition foo : outcome (heap * list event) :=
  Extend demo_heap demo_root (Some always) "text/x-foo" ".foo" ["text/foo"].

Definition foo_heap : heap :=
  match foo with Done (h, _) => h | _ => empty_heap end.

Definition plain : MIME := mkMIME "text/plain" [] None ".txt" None None None.
Definition html : MIME := mkMIME "text/html" [] None ".html" None None None.

End custom.

(** ** Recorded runs on the small trees *)
Section runs.
Import GoMime.

Definition returned (o : outcome (loc * heap * list event))
    : loc * heap * list event :=
  match o with
  | Done x => x
  | _ => (1%positive, empty_heap, [])
  end.

Definition node_at (h : heap) (m : loc) : MIME :=
  default plain (nodes h !! m).

Definition demo_root_node : MIME := Eval vm_compute in node_at demo_heap demo_root.

(** Two matches in a row on the small tree. *)
Definition run1 : loc * heap * list event :=
  Eval vm_compute in returned (match_ 6 demo_heap demo_root [] 3072).
Definition run2 : loc * heap * list event :=
  Eval vm_compute in returned (match_ 6 run1.1.2 demo_root [xef; xbb; xbf] 3072).

(** The first of them once more, on the heap it left. *)
Definition run1_again : loc * heap * list event :=
  Eval vm_compute in returned (match_ 6 run1.1.2 demo_root [] 3072).

(** Matches on the extended tree. *)
Definition run_bin : loc * heap * list event :=
  Eval vm_compute in returned (match_ 8 custom_heap demo_root [x78] 3072).
Definition run_txt : loc * heap * list event :=
  Eval vm_compute in returned (match_ 8 custom_heap demo_root [] 3072).

End runs.

(** ** Listings and searches on the small trees *)
Section listed.
Import GoMime.

(** Two leaves that have no parent yet. *)
Definition twigs : outcome (loc * loc * heap) :=
  '(html, h) ← newMIME empty_heap "text/html" ".html" (Some never) [];
  '(jsn, h) ← newMIME h "application/json" ".json" (Some always) [];
  Done (html, jsn, h).

Definition twig_html : loc :=
  match twigs with Done (c, _, _) => c | _ => 1%positive end.
Definition twig_json : loc :=
  match twigs with Done (_, c, _) => c | _ => 1%positive end.
Definition twig_heap : heap :=
  match twigs with Done (_, _, h) => h | _ => empty_heap end.

(** The small tree extended as in [foo], with the events of the call. *)
Definition run_foo : heap * list event :=
  match foo with Done x => x | _ => (empty_heap, []) end.

(** The small tree extended at the root with a nil detector. *)
Definition run_nil : heap * list event :=
  match Extend demo_heap demo_root None "text/x-nil" ".nil" [] with
  | Done x => x
  | _ => (empty_heap, [])
  end.

(** The small tree extended at the root with a detector that rejects
    every input. *)
Definition run_never : heap * list event :=
  match Extend demo_heap demo_root (Some never) "text/x-never" ".nvr" [] with
  | Done x => x
  | _ => (empty_heap, [])
  end.

(** The small tree extended after a match on it has returned. *)
Definition run_late : heap * list event :=
  match Extend run1.1.2 demo_root (Some always) "text/x-foo" ".foo" ["text/foo"]
  with
  | Done x => x
  | _ => (empty_heap, [])
  end.

(** The node of the small tree that is called text/plain. *)
Definition demo_txt : loc :=
  Eval vm_compute in
    match lookup 3 demo_heap demo_root "text/plain" with
    | Done (Some x) => x
    | _ => 1%positive
    end.

End listed.

(** * Properties *)

Section basics.

Lemma range_insert_union (src dst : gmap string string) :
  range_insert src dst = src ∪ dst.
Proof.
  unfold range_insert.
  apply (map_fold_weak_ind (λ r m, r = m ∪ dst)).
  - by rewrite (left_id_L ∅ (∪)).
  - intros k v m r Hk ->. by rewrite insert_union_l.
Qed.

Lemma map_of_mono h h' p :
  closed_map h p = true → maps h ⊆ maps h' → map_of h' p = map_of h p.
Proof.
  destruct p as [a|]; simpl; [|done].
  intros Hc Hsub. apply bool_decide_eq_true in Hc as [x Hx].
  by rewrite Hx, (lookup_weaken _ _ _ _ Hx Hsub).
Qed.

Lemma slice_of_mono h h' s :
  closed_slice h s = true → arrays h ⊆ arrays h' → slice_of h' s = slice_of h s.
Proof.
  destruct s as [a|]; simpl; [|done].
  intros Hc Hsub. apply bool_decide_eq_true in Hc as [x Hx].
  by rewrite Hx, (lookup_weaken _ _ _ _ Hx Hsub).
Qed.

Lemma closed_map_mono h h' p :
  closed_map h p = true → maps h ⊆ maps h' → closed_map h' p = true.
Proof.
  destruct p as [a|]; simpl; [|done].
  intros Hc Hsub. apply bool_decide_eq_true in Hc as [x Hx].
  apply bool_decide_eq_true. exists x. by eapply lookup_weaken.
Qed.

Lemma fresh_lookup {A} (m : gmap loc A) : m !! fresh (dom m) = None.
Proof. apply not_elem_of_dom, is_fresh. Qed.

#[global] Instance heap_incl_preorder : PreOrder (⊑@{heap}).
Proof.
  split.
  - by intros h.
  - intros h1 h2 h3 (?&?&?) (?&?&?).
    repeat split; by etrans.
Qed.

End basics.

(** The reference parser keeps the contract of the library's: with an
    error comes a nil map and either the empty string or the base type;
    without one, the lower-cased, trimmed base type and a map. *)
Section reference_parser.
Import GoMime.

Lemma parseParams_contract fuel : ∀ mt v ps,
  let res := parseParams fuel mt v ps in
  if merr res
  then mparams res = None ∧ (mediatype res = EmptyString ∨ mediatype res = mt)
  else is_Some (mparams res) ∧ mediatype res = mt.
Proof.
  induction fuel as [|fuel IH]; intros mt v ps; simpl.
  - destruct (TrimLeft v); simpl; eauto.
  - destruct (TrimLeft v) as [|c v']; simpl; [eauto|].
    destruct (consumeMediaParam (String c v')) as [[key value] rest].
    destruct key as [|k key].
    + destruct (String.eqb (TrimSpace rest) ";"); simpl; eauto.
    + destruct (ps !! String k key) as [old|].
      * destruct (String.eqb old value); [apply IH|simpl; eauto].
      * apply IH.
Qed.

Lemma ParseMediaType_contract v :
  let res := GoMime.ParseMediaType v in
  let base := (span (λ c, negb (Ascii.eqb c ";")) v).1 in
  if merr res
  then mparams res = None ∧
       (mediatype res = EmptyString ∨
        mediatype res = TrimSpace (ToLower base))
  else is_Some (mparams res) ∧ mediatype res = TrimSpace (ToLower base).
Proof.
  unfold GoMime.ParseMediaType.
  destruct (span (λ c, negb (Ascii.eqb c ";")) v) as [base rest]. simpl.
  destruct (checkMediaTypeDisposition (TrimSpace (ToLower base))).
  - apply parseParams_contract.
  - simpl. eauto.
Qed.

End reference_parser.

Section cloning.
Context `{Imports}.

Lemma clone_eq h m n ps :
  nodes h !! m = Some n →
  clone h m ps =
    Done (fresh (dom (nodes h)),
          mkHeap (<[fresh (dom (nodes h)) :=
                      mkMIME (typ n) (aliases n) (Some (fresh (dom (maps h))))
                             (extension n) None None None]> (nodes h))
                 (<[fresh (dom (maps h)) :=
                      default ∅ ps ∪ map_of h (params n)]> (maps h))
                 (arrays h) (mu h)).
Proof.
  intros Hm. unfold clone, load. rewrite Hm. simpl.
  by rewrite !range_insert_union, (right_id_L ∅ (∪)).
Qed.

Lemma cloned_weaken h0 h1 h1' h2 p rp :
  (∀ r, nodes h1' !! r = None → nodes h1 !! r = None) →
  (∀ a, maps h1' !! a = None → maps h1 !! a = None) →
  cloned h0 h1' h2 p rp → cloned h0 h1 h2 p rp.
Proof.
  intros Hn Hm. induction 1; econstructor; eauto.
Qed.

Lemma cloneParents_spec h0 p l :
  lineage h0 p l →
  ∀ h1 last nl,
    h0 ⊑ h1 →
    nodes h1 !! last = Some nl → parent nl = None →
    nodes h0 !! last = None →
    ∃ h2 rp,
      (∀ fuel, length l ≤ fuel → cloneParents fuel h1 p last = Done h2) ∧
      nodes h2 !! last = Some (with_parent rp nl) ∧
      cloned h0 h1 h2 p rp ∧
      (∀ a x, a ≠ last → nodes h1 !! a = Some x → nodes h2 !! a = Some x) ∧
      maps h1 ⊆ maps h2 ∧ arrays h2 = arrays h1 ∧ mu h2 = mu h1.
Proof.
  induction 1 as [|pa n l Hpa Hclosed _ IH];
    intros h1 last nl (Hn & Hm & Ha) Hlast Hnil Hfresh.
  - exists h1, None. split; [by intros [|fuel] _|].
    split; [|by eauto using cloned].
    rewrite Hlast; f_equal; destruct nl; simpl in *; by subst.
  - pose proof (lookup_weaken _ _ _ _ Hpa Hn) as Hpa1.
    set (rc := fresh (dom (nodes h1))).
    set (ac := fresh (dom (maps h1))).
    assert (nodes h1 !! rc = None) as Hrc by apply fresh_lookup.
    assert (maps h1 !! ac = None) as Hac by apply fresh_lookup.
    assert (last ≠ rc) as Hne1 by congruence.
    assert (pa ≠ rc) as Hne2 by congruence.
    assert (pa ≠ last) as Hne3 by congruence.
    set (cl := mkMIME (typ n) (aliases n) (Some ac) (extension n) None None None).
    set (h2' := mkHeap (<[last:=with_parent (Some rc) nl]> (<[rc:=cl]> (nodes h1)))
                       (<[ac:=∅ ∪ map_of h1 (params n)]> (maps h1))
                       (arrays h1) (mu h1)).
    assert (∀ fuel, cloneParents (S fuel) h1 (Some pa) last =
                    cloneParents fuel h2' (parent n) rc) as Hstep.
    { intros fuel. simpl. rewrite (clone_eq _ _ _ _ Hpa1). simpl.
      fold rc ac. unfold store, load. simpl.
      rewrite lookup_insert_ne by done. rewrite Hlast. simpl.
      unfold Parent, load. simpl.
      rewrite !lookup_insert_ne by done. by rewrite Hpa1. }
    destruct (IH h2' rc cl) as (h2 & rp & Hrun & Hrc2 & Hcl & Hframe & Hmaps & Harr & Hmu).
    + subst h2'. split; [|split]; simpl;
        [|apply insert_subseteq_r; [by eapply lookup_weaken_None|done]|done].
      apply insert_subseteq_r; [done|]. apply insert_subseteq_r; [|done].
      by eapply lookup_weaken_None.
    + subst h2'. simpl. rewrite lookup_insert_ne by done.
      apply lookup_insert_eq.
    + done.
    + by eapply lookup_weaken_None.
    + exists h2, (Some rc).
      split.
      { intros [|fuel] Hfuel; simpl in Hfuel; [lia|].
        rewrite Hstep. apply Hrun. lia. }
      split; [|split; [|split; [|split; [|done]]]].
      * apply Hframe; [done|]. subst h2'. simpl. apply lookup_insert_eq.
      * eapply cloned_cons with (a := ac); eauto.
        -- apply (lookup_weaken (maps h2') _ _ _); [|done].
           subst h2'. simpl. rewrite lookup_insert_eq. f_equal.
           rewrite (left_id_L ∅ (∪)). by apply map_of_mono.
        -- eapply cloned_weaken; [| |done]; subst h2'; simpl.
           ++ intros r. rewrite !lookup_insert_None. tauto.
           ++ intros a. rewrite lookup_insert_None. tauto.
      * intros a x Hne Hx. apply Hframe.
        -- congruence.
        -- subst h2'. simpl. rewrite !lookup_insert_ne by congruence. done.
      * etrans; [|done]. subst h2'. simpl. by apply insert_subseteq.
Qed.

Lemma cloneHierarchy_spec h0 h t l ps :
  lineage h0 (Some t) l → h0 ⊑ h →
  ∃ r h',
    (∀ fuel, length l ≤ S fuel →
             cloneHierarchy fuel h t (Some ps) = Done (r, h')) ∧
    result_of h0 h h' t r ps ∧
    h ⊑ h' ∧ arrays h' = arrays h ∧ mu h' = mu h.
Proof.
  intros Hl Hincl. inversion Hl as [|? n l' Ht Hclosed Hl']; subst.
  destruct Hincl as (Hn & Hm & Ha).
  pose proof (lookup_weaken _ _ _ _ Ht Hn) as Ht1.
  set (r := fresh (dom (nodes h))).
  set (a := fresh (dom (maps h))).
  assert (nodes h !! r = None) as Hr by apply fresh_lookup.
  assert (maps h !! a = None) as Hfa by apply fresh_lookup.
  assert (t ≠ r) as Hne by congruence.
  set (cl := mkMIME (typ n) (aliases n) (Some a) (extension n) None None None).
  set (h1 := mkHeap (<[r:=cl]> (nodes h))
                    (<[a:=ps ∪ map_of h (params n)]> (maps h))
                    (arrays h) (mu h)).
  assert (∀ fuel, cloneHierarchy fuel h t (Some ps) =
                  h2 ← cloneParents fuel h1 (parent n) r; Done (r, h2)) as Hstep.
  { intros fuel. unfold cloneHierarchy. rewrite (clone_eq _ _ _ _ Ht1).
    simpl. fold r a. unfold Parent, load. simpl.
    rewrite lookup_insert_ne by done. by rewrite Ht1. }
  destruct (cloneParents_spec h0 (parent n) l' Hl' h1 r cl)
    as (h2 & rp & Hrun & Hr2 & Hcl & Hframe & Hmaps & Harr & Hmu).
  - subst h1. split; [|split]; simpl; [| |done].
    + apply insert_subseteq_r; [by eapply lookup_weaken_None|done].
    + apply insert_subseteq_r; [by eapply lookup_weaken_None|done].
  - subst h1. simpl. apply lookup_insert_eq.
  - done.
  - by eapply lookup_weaken_None.
  - exists r, h2. split.
    { intros fuel Hfuel. simpl in Hfuel. rewrite Hstep, Hrun; [done|lia]. }
    split; [|split; [|done]].
    + exists n, a, rp. split; [done|]. split; [done|]. split; [done|].
      split; [done|]. split.
      * apply (lookup_weaken (maps h1) _ _ _); [|done].
        subst h1. simpl. rewrite lookup_insert_eq. f_equal. f_equal.
        by apply map_of_mono.
      * eapply cloned_weaken; [| |done]; subst h1; simpl.
        -- intros r'. rewrite lookup_insert_None. tauto.
        -- intros a'. rewrite lookup_insert_None. tauto.
    + split; [|split].
      * apply map_subseteq_spec. intros x nx Hx. apply Hframe; [congruence|].
        subst h1. simpl. rewrite lookup_insert_ne by congruence. done.
      * etrans; [|done]. subst h1. simpl. by apply insert_subseteq.
      * by rewrite Harr.
Qed.

End cloning.

Section descending.

Lemma tree_ok_S d h par m :
  tree_ok (S d) h par m = true ↔
  ∃ n, nodes h !! m = Some n ∧ parent n = par ∧
       closed_map h (params n) = true ∧
       closed_slice h (children n) = true ∧
       Forall (λ c, has_detector h c = true ∧ tree_ok d h (Some m) c = true)
              (slice_of h (children n)).
Proof.
  simpl. destruct (nodes h !! m) as [n|];
    [|split; [done|by intros (? & ? & _)]].
  assert (forallb (λ c, has_detector h c && tree_ok d h (Some m) c)
                  (slice_of h (children n)) = true ↔
          Forall (λ c, has_detector h c = true ∧ tree_ok d h (Some m) c = true)
                 (slice_of h (children n))) as Hall.
  { rewrite forallb_forall, Forall_forall.
    split; intros Hx c Hc; apply andb_true_iff, Hx; by apply list_elem_of_In. }
  rewrite !andb_true_iff, bool_decide_eq_true, Hall. split.
  - intros (((? & ?) & ?) & ?). by exists n.
  - intros (n' & [= <-] & ? & ? & ? & ?). done.
Qed.

Lemma tree_ok_mono d : ∀ h h' par m,
  h ⊑ h' → tree_ok d h par m = true → tree_ok d h' par m = true.
Proof.
  induction d as [|d IH]; intros h h' par m Hincl; [done|].
  rewrite !tree_ok_S. intros (n & Hn & Hpar & Hps & Hcs & Hall).
  pose proof Hincl as (Hnodes & Hmaps & Harrs).
  exists n. split; [by eapply lookup_weaken|]. split; [done|].
  split; [by eapply closed_map_mono|].
  split.
  { destruct (children n) as [a|]; simpl in *; [|done].
    apply bool_decide_eq_true in Hcs as [x Hx].
    apply bool_decide_eq_true. exists x. by eapply lookup_weaken. }
  rewrite (slice_of_mono h h') by done.
  eapply Forall_impl; [done|]. intros c [Hdet Hc]. split; [|by eapply IH].
  unfold has_detector in *. destruct (nodes h !! c) as [cn|] eqn:E; [|done].
  by rewrite (lookup_weaken _ _ _ _ E Hnodes).
Qed.

Lemma rejects_mono h h' raw lim c :
  nodes h ⊆ nodes h' → rejects h raw lim c → rejects h' raw lim c.
Proof.
  intros Hn (cn & d & Hc & Hd & Hr). exists cn, d.
  split; [by eapply lookup_weaken|done].
Qed.

Lemma accepts_mono h h' raw lim c :
  nodes h ⊆ nodes h' → accepts h raw lim c → accepts h' raw lim c.
Proof.
  intros Hn (cn & d & Hc & Hd & Hr). exists cn, d.
  split; [by eapply lookup_weaken|done].
Qed.

Lemma accepts_rejects h raw lim c :
  accepts h raw lim c → rejects h raw lim c → False.
Proof.
  intros (cn & d & Hc & Hd & Hr) (cn' & d' & Hc' & Hd' & Hr'). congruence.
Qed.

(** A list of children with detectors splits at its first accepting
    child, if it has one. *)
Lemma first_accept h raw lim cs :
  Forall (λ c, has_detector h c = true) cs →
  Forall (rejects h raw lim) cs ∨
  ∃ before c after,
    cs = before ++ c :: after ∧ Forall (rejects h raw lim) before ∧
    accepts h raw lim c.
Proof.
  induction 1 as [|c cs Hc _ IH]; [by left|].
  unfold has_detector in Hc. destruct (nodes h !! c) as [cn|] eqn:Hcn; [|done].
  apply bool_decide_eq_true in Hc as [d Hd].
  destruct (d raw lim) eqn:Hrun.
  - right. exists [], c, cs. split; [done|]. split; [constructor|].
    by exists cn, d.
  - assert (rejects h raw lim c) as Hrej by by exists cn, d.
    destruct IH as [Hall|(before & c' & after & -> & Hbefore & Hacc)].
    + left. by constructor.
    + right. exists (c :: before), c', after. split; [done|].
      split; [by constructor|done].
Qed.

(** The first accepting child is unique. *)
Lemma first_accept_unique h raw lim before c after before' c' after' :
  before ++ c :: after = before' ++ c' :: after' →
  Forall (rejects h raw lim) before → accepts h raw lim c →
  Forall (rejects h raw lim) before' → accepts h raw lim c' →
  before = before' ∧ c = c' ∧ after = after'.
Proof.
  revert before'. induction before as [|b before IH];
    intros [|b' before'] Heq Hb Hc Hb' Hc'; simpl in Heq;
    injection Heq as -> Heq.
  - by subst.
  - exfalso. apply (accepts_rejects _ _ _ _ Hc). by inversion Hb'.
  - exfalso. apply (accepts_rejects _ _ _ _ Hc'). by inversion Hb.
  - inversion Hb; inversion Hb'; subst.
    destruct (IH before' Heq) as (-> & -> & ->); done.
Qed.

Lemma descent_unique h raw lim m tested t :
  descent h raw lim m tested t →
  ∀ tested' t', descent h raw lim m tested' t' → t' = t ∧ tested' = tested.
Proof.
  induction 1 as [m n Hm Hall|m n before c after tested t Hm Hcs Hbefore Hacc _ IH];
    intros tested' t' Hd';
    inversion Hd' as [? n' Hm' Hall'|? n' before' c' after' tested'' ? Hm' Hcs' Hbefore' Hacc' Hd''];
    subst; rewrite Hm in Hm'; injection Hm' as <-.
  - done.
  - exfalso. rewrite Hcs' in Hall. apply Forall_app in Hall as [_ Hall].
    apply (accepts_rejects _ _ _ _ Hacc'). by inversion Hall.
  - exfalso. rewrite Hcs in Hall'. apply Forall_app in Hall' as [_ Hall'].
    apply (accepts_rejects _ _ _ _ Hacc). by inversion Hall'.
  - rewrite Hcs in Hcs'.
    destruct (first_accept_unique h raw lim _ _ _ _ _ _ Hcs') as (<- & <- & <-);
      [done..|].
    destruct (IH _ _ Hd'') as [-> ->]. done.
Qed.

End descending.

Section matching.
Context `{Imports}.

Lemma match_children_reject descend fall h raw lim cs r h' tr :
  Forall (rejects h raw lim) cs → fall = Done (r, h', tr) →
  match_children descend fall h raw lim cs =
    Done (r, h', detections raw lim cs ++ tr).
Proof.
  intros Hall Hfall.
  induction Hall as [|c cs (cn & d & Hc & Hd & Hr) _ IH]; simpl; [done|].
  unfold load. rewrite Hc. simpl. by rewrite Hd, Hr, IH.
Qed.

Lemma match_children_accept descend fall h raw lim before c after r h' tr :
  Forall (rejects h raw lim) before → accepts h raw lim c →
  descend c = Done (r, h', tr) →
  match_children descend fall h raw lim (before ++ c :: after) =
    Done (r, h', detections raw lim (before ++ [c]) ++ tr).
Proof.
  intros Hall (cn & d & Hc & Hd & Hr) Hdesc.
  induction Hall as [|b before (bn & e & Hb & He & Hrb) _ IH]; simpl.
  - unfold load. rewrite Hc. simpl. by rewrite Hd, Hr, Hdesc.
  - unfold load. rewrite Hb. simpl. rewrite He, Hrb. unfold load in IH.
    by rewrite IH.
Qed.

(** The run of [match] on a heap [h] that extends the heap [h0] of a
    well-formed tree: where it stops, what it calls and what it builds
    are read off [h0]. *)
Lemma match_spec d : ∀ h0 h par m l raw lim,
  tree_ok d h0 par m = true → lineage h0 par l → h0 ⊑ h →
  ∃ t nt lt tested r h',
    descent h0 raw lim m tested t ∧
    nodes h0 !! t = Some nt ∧
    lineage h0 (Some t) lt ∧
    result_of h0 h h' t r (sniff (typ nt) raw).1 ∧
    h ⊑ h' ∧ arrays h' = arrays h ∧ mu h' = mu h ∧
    ∀ fuel, 2 * d + length l ≤ fuel →
      match_ fuel h m raw lim =
        Done (r, h', detections raw lim tested ++ (sniff (typ nt) raw).2).
Proof.
  induction d as [|d IH]; intros h0 h par m l raw lim Hok Hl Hincl; [done|].
  apply tree_ok_S in Hok as (n & Hm & Hpar & Hps & Hcs & Hall).
  pose proof Hincl as (Hnodes & Hmaps & Harrs).
  assert (lineage h0 (Some m) (m :: l)) as Hlm.
  { econstructor; [done..|]. by rewrite Hpar. }
  assert (∀ fuel, match_ (S fuel) h m raw lim =
            match_children (λ c, match_ fuel h c raw lim)
              (finish fuel h m n raw) h raw lim (slice_of h0 (children n)))
    as Hstep.
  { intros fuel. simpl. unfold load.
    rewrite (lookup_weaken _ _ _ _ Hm Hnodes). simpl.
    by rewrite (slice_of_mono h0 h). }
  destruct (first_accept h0 raw lim (slice_of h0 (children n)))
    as [Hrej|(before & c & after & Hsplit & Hrej & Hacc)].
  { eapply Forall_impl; [done|]. by intros c [? _]. }
  - destruct (cloneHierarchy_spec h0 h m (m :: l) (sniff (typ n) raw).1 Hlm Hincl)
      as (r & h' & Hrun & Hres & Hincl' & Harr & Hmu).
    exists m, n, (m :: l), (slice_of h0 (children n)), r, h'.
    split; [by constructor|]. do 6 (split; [done|]).
    intros [|fuel] Hfuel; [lia|]. rewrite Hstep.
    apply match_children_reject.
    + eapply Forall_impl; [done|]. intros c. by apply rejects_mono.
    + unfold finish. destruct (sniff (typ n) raw) as [ps tr]. simpl in *.
      rewrite Hrun by lia. done.
  - rewrite Hsplit in Hall. apply Forall_app in Hall as [_ Hall].
    apply Forall_cons in Hall as [[_ Hc] _].
    destruct (IH h0 h (Some m) c (m :: l) raw lim Hc Hlm Hincl)
      as (t & nt & lt & tested & r & h' & Hdesc & Ht & Hlt & Hres & Hincl'
          & Harr & Hmu & Hrun).
    exists t, nt, lt, (before ++ c :: tested), r, h'.
    split; [by econstructor|]. do 6 (split; [done|]).
    intros [|fuel] Hfuel; [lia|]. rewrite Hstep, Hsplit.
    rewrite (match_children_accept _ _ _ _ _ before c after r h'
               (detections raw lim tested ++ (sniff (typ nt) raw).2)).
    + unfold detections. rewrite !fmap_app. simpl.
      by rewrite <-!app_assoc.
    + eapply Forall_impl; [done|]. intros b. by apply rejects_mono.
    + by eapply accepts_mono.
    + apply Hrun. simpl in *. lia.
Qed.

End matching.

Section fuel.
Context `{Imports}.

Lemma cloneParents_fuel fuel : ∀ fuel' h p last h2,
  cloneParents fuel h p last = Done h2 → fuel ≤ fuel' →
  cloneParents fuel' h p last = Done h2.
Proof.
  induction fuel as [|fuel IH]; intros fuel' h p last h2 Hrun Hle;
    destruct p as [pa|]; try done.
  - by destruct fuel'.
  - destruct fuel' as [|fuel']; [lia|]. simpl in *.
    destruct (clone h pa None) as [[pClone h1]| |]; try done. simpl in *.
    destruct (store h1 last _) as [h2'| |]; try done. simpl in *.
    destruct (Parent h2' pa) as [p'| |]; try done. simpl in *.
    apply IH; [done|lia].
  - by destruct fuel'.
Qed.

Lemma cloneHierarchy_fuel fuel fuel' h m ps x :
  cloneHierarchy fuel h m ps = Done x → fuel ≤ fuel' →
  cloneHierarchy fuel' h m ps = Done x.
Proof.
  unfold cloneHierarchy. intros Hrun Hle.
  destruct (clone h m ps) as [[ret h1]| |]; try done. simpl in *.
  destruct (Parent h1 m) as [p| |]; try done. simpl in *.
  destruct (cloneParents fuel h1 p ret) as [h2| |] eqn:E; try done.
  by rewrite (cloneParents_fuel _ _ _ _ _ _ E Hle).
Qed.

Lemma match_children_mono descend descend' fall fall' h raw lim cs x :
  (∀ c y, descend c = Done y → descend' c = Done y) →
  (∀ y, fall = Done y → fall' = Done y) →
  match_children descend fall h raw lim cs = Done x →
  match_children descend' fall' h raw lim cs = Done x.
Proof.
  intros Hd Hf. revert x. induction cs as [|c cs IH]; intros x; simpl; [auto|].
  destruct (load h c) as [cn| |]; try done. simpl.
  destruct (detector cn) as [d|]; [|done].
  destruct (d raw lim).
  - destruct (descend c) as [y| |] eqn:E; try done.
    by rewrite (Hd _ _ E).
  - destruct (match_children descend fall h raw lim cs) as [y| |]; try done.
    by rewrite (IH _ eq_refl).
Qed.

Lemma match_fuel fuel : ∀ fuel' h m raw lim x,
  match_ fuel h m raw lim = Done x → fuel ≤ fuel' →
  match_ fuel' h m raw lim = Done x.
Proof.
  induction fuel as [|fuel IH]; intros fuel' h m raw lim x Hrun Hle; [done|].
  destruct fuel' as [|fuel']; [lia|]. simpl in *.
  destruct (load h m) as [n| |]; try done. simpl in *.
  eapply match_children_mono; [| |done].
  - intros c y Hc. apply (IH fuel'); [done|lia].
  - intros y. unfold finish. destruct (sniff (typ n) raw) as [ps tr].
    destruct (cloneHierarchy fuel h m (Some ps)) as [z| |] eqn:E; try done.
    by rewrite (cloneHierarchy_fuel _ fuel' _ _ _ _ E) by lia.
Qed.

(** The loop of [cloneHierarchy] writes [parent] fields only. *)
Lemma cloneParents_keeps fuel : ∀ h p last h2,
  cloneParents fuel h p last = Done h2 →
  ∀ x nx, nodes h !! x = Some nx →
    ∃ nx', nodes h2 !! x = Some nx' ∧ typ nx' = typ nx ∧
           aliases nx' = aliases nx ∧ extension nx' = extension nx.
Proof.
  induction fuel as [|fuel IH]; intros h p last h2 Hrun x nx Hx;
    destruct p as [pa|]; simpl in Hrun; try done.
  - injection Hrun as <-. by exists nx.
  - unfold clone, load in Hrun.
    destruct (nodes h !! pa) as [n|] eqn:Hpa; [|done]. simpl in Hrun.
    unfold store, load in Hrun. simpl in Hrun.
    set (rc := fresh (dom (nodes h))) in *.
    assert (x ≠ rc) as Hne.
    { intros ->. subst rc. by rewrite fresh_lookup in Hx. }
    destruct (<[rc:=_]> (nodes h) !! last) as [nl|] eqn:Hlast; [|done].
    simpl in Hrun.
    destruct (Parent _ pa) as [p'| |]; try done. simpl in Hrun.
    destruct (decide (x = last)) as [->|Hne'].
    + rewrite lookup_insert_ne in Hlast by done. rewrite Hx in Hlast.
      injection Hlast as <-.
      destruct (IH _ _ _ _ Hrun last (with_parent (Some rc) nx))
        as (nx' & ? & ? & ? & ?); [by apply lookup_insert_eq|].
      by exists nx'.
    + eapply IH; [done|]. simpl. by rewrite !lookup_insert_ne.
  - injection Hrun as <-. by exists nx.
Qed.

Lemma cloneHierarchy_keeps fuel h m n ps r h' :
  nodes h !! m = Some n →
  cloneHierarchy fuel h m ps = Done (r, h') →
  ∃ nr, nodes h' !! r = Some nr ∧ typ nr = typ n ∧
        aliases nr = aliases n ∧ extension nr = extension n.
Proof.
  intros Hm Hrun. unfold cloneHierarchy in Hrun.
  rewrite (clone_eq _ _ _ _ Hm) in Hrun. simpl in Hrun.
  destruct (Parent _ m) as [p| |]; try done. simpl in Hrun.
  destruct (cloneParents fuel _ p _) as [h2| |] eqn:E; try done.
  injection Hrun as <- <-.
  destruct (cloneParents_keeps _ _ _ _ _ E (fresh (dom (nodes h)))
              (mkMIME (typ n) (aliases n) (Some (fresh (dom (maps h))))
                      (extension n) None None None))
    as (nr & ? & ? & ? & ?); [by apply lookup_insert_eq|].
  by exists nr.
Qed.

(** A returned loop over the children either fell through, every child
    having rejected, or descended into the first child that accepted. *)
Lemma match_children_done descend fall h raw lim cs r h' tr :
  match_children descend fall h raw lim cs = Done (r, h', tr) →
  (Forall (rejects h raw lim) cs ∧
   ∃ tr', fall = Done (r, h', tr') ∧ tr = detections raw lim cs ++ tr') ∨
  (∃ before c after tr',
     cs = before ++ c :: after ∧ Forall (rejects h raw lim) before ∧
     accepts h raw lim c ∧ descend c = Done (r, h', tr') ∧
     tr = detections raw lim (before ++ [c]) ++ tr').
Proof.
  revert tr. induction cs as [|c cs IH]; intros tr Hrun; simpl in Hrun.
  - left. split; [constructor|]. by exists tr.
  - unfold load in Hrun. destruct (nodes h !! c) as [cn|] eqn:Hc; [|done].
    simpl in Hrun. destruct (detector cn) as [d|] eqn:Hd; [|done].
    destruct (d raw lim) eqn:Hacc.
    + destruct (descend c) as [[[r0 h0] tr0]| |] eqn:E; try done.
      injection Hrun as -> -> <-.
      right. exists [], c, cs, tr0. split; [done|]. split; [constructor|].
      split; [by exists cn, d|done].
    + destruct (match_children descend fall h raw lim cs)
        as [[[r0 h0] tr0]| |] eqn:E; try done.
      injection Hrun as -> -> <-.
      assert (rejects h raw lim c) as Hrej by by exists cn, d.
      destruct (IH _ eq_refl) as [[Hall (tr' & Hf & ->)]
                                 |(before & c' & after & tr' & -> & Hb & Ha & Hd' & ->)].
      * left. split; [by constructor|]. by exists tr'.
      * right. exists (c :: before), c', after, tr'.
        split; [done|]. split; [by constructor|]. done.
Qed.

(** A returned [match], on any heap, stopped where the descent stops,
    called the detectors the descent tests, and returned a copy of the
    type, aliases and extension of the node where it stopped. *)
Lemma match_sound fuel : ∀ h m raw lim r h' tr,
  match_ fuel h m raw lim = Done (r, h', tr) →
  ∃ t nt tested nr,
    descent h raw lim m tested t ∧ nodes h !! t = Some nt ∧
    tr = detections raw lim tested ++ (sniff (typ nt) raw).2 ∧
    nodes h' !! r = Some nr ∧
    typ nr = typ nt ∧ aliases nr = aliases nt ∧ extension nr = extension nt.
Proof.
  induction fuel as [|fuel IH]; intros h m raw lim r h' tr Hrun; [done|].
  simpl in Hrun. unfold load in Hrun.
  destruct (nodes h !! m) as [n|] eqn:Hm; [|done]. simpl in Hrun.
  apply match_children_done in Hrun
    as [[Hall (tr' & Hf & ->)]
       |(before & c & after & tr' & Hcs & Hb & Ha & Hd & ->)].
  - unfold finish in Hf. destruct (sniff (typ n) raw) as [ps trs] eqn:Hs.
    destruct (cloneHierarchy fuel h m (Some ps)) as [[r0 h0]| |] eqn:E;
      try done.
    injection Hf as -> -> <-.
    destruct (cloneHierarchy_keeps _ _ _ _ _ _ _ Hm E) as (nr & ? & ? & ? & ?).
    exists m, n, (slice_of h (children n)), nr.
    split; [by constructor|]. rewrite Hs. done.
  - destruct (IH _ _ _ _ _ _ _ Hd)
      as (t & nt & tested & nr & Hdesc & Ht & -> & Hr & ? & ? & ?).
    exists t, nt, (before ++ c :: tested), nr.
    split; [by econstructor|]. split; [done|]. split; [|done].
    unfold detections. rewrite !fmap_app. simpl. by rewrite <-!app_assoc.
Qed.

(** What a returned [match] tells, whatever fuel it ran with. *)
Lemma match_done d h0 h root raw lim fuel r h' tr :
  tree_ok d h0 None root = true → h0 ⊑ h →
  match_ fuel h root raw lim = Done (r, h', tr) →
  ∃ t nt lt tested,
    descent h0 raw lim root tested t ∧
    nodes h0 !! t = Some nt ∧
    lineage h0 (Some t) lt ∧
    result_of h0 h h' t r (sniff (typ nt) raw).1 ∧
    h ⊑ h' ∧ arrays h' = arrays h ∧ mu h' = mu h ∧
    tr = detections raw lim tested ++ (sniff (typ nt) raw).2.
Proof.
  intros Hok Hincl Hrun.
  destruct (match_spec d h0 h None root [] raw lim Hok (lineage_nil _) Hincl)
    as (t & nt & lt & tested & r0 & h0' & Hdesc & Ht & Hlt & Hres & Hincl'
        & Harr & Hmu & Hspec).
  pose proof (match_fuel _ (fuel `max` (2 * d)) _ _ _ _ _ Hrun
                (Nat.le_max_l _ _)) as Hrun'.
  rewrite Hspec in Hrun' by (simpl; lia).
  injection Hrun' as -> -> <-.
  by exists t, nt, lt, tested.
Qed.

End fuel.

Section views.
Context `{Imports}.

Lemma result_view h0 h h' t nt r ps :
  result_of h0 h h' t r ps → nodes h0 !! t = Some nt →
  view h' r = Done (typ nt, aliases nt, ps ∪ map_of h0 (params nt), extension nt).
Proof.
  intros (n & a & rp & Ht & _ & _ & Hr & Ha & _) Ht'.
  rewrite Ht in Ht'. injection Ht' as <-.
  unfold view, load. rewrite Hr. simpl. by rewrite Ha.
Qed.

(** A [match] on any heap that extends the heap of a well-formed tree
    shows the caller what the tree alone determines. *)
Lemma match_view d h0 h root raw lim :
  tree_ok d h0 None root = true → h0 ⊑ h →
  ∃ t nt tested,
    descent h0 raw lim root tested t ∧ nodes h0 !! t = Some nt ∧
    ∀ fuel, 2 * d ≤ fuel →
      view_of (match_ fuel h root raw lim) =
        Done (typ nt, aliases nt,
              (sniff (typ nt) raw).1 ∪ map_of h0 (params nt), extension nt).
Proof.
  intros Hok Hincl.
  destruct (match_spec d h0 h None root [] raw lim Hok (lineage_nil _) Hincl)
    as (t & nt & lt & tested & r & h' & Hdesc & Ht & Hlt & Hres & _ & _ & _ & Hrun).
  exists t, nt, tested. split; [done|]. split; [done|].
  intros fuel Hfuel. rewrite Hrun by (simpl; lia). simpl.
  by eapply result_view.
Qed.

Lemma match_frame d h0 hA hB root raw lim :
  tree_ok d h0 None root = true → h0 ⊑ hA → h0 ⊑ hB →
  ∃ v, ∀ fuel, 2 * d ≤ fuel →
    view_of (match_ fuel hA root raw lim) = Done v ∧
    view_of (match_ fuel hB root raw lim) = Done v.
Proof.
  intros Hok HA HB.
  destruct (match_view d h0 hA root raw lim Hok HA)
    as (t & nt & tested & Hdesc & Ht & HrunA).
  destruct (match_view d h0 hB root raw lim Hok HB)
    as (t' & nt' & tested' & Hdesc' & Ht' & HrunB).
  destruct (descent_unique _ _ _ _ _ _ Hdesc _ _ Hdesc') as [-> ->].
  rewrite Ht in Ht'. injection Ht' as <-.
  eexists. intros fuel Hfuel. split; [by apply HrunA|by apply HrunB].
Qed.

Lemma lineage_last h r chain :
  lineage h (Some r) chain →
  ∃ top ntop, last chain = Some top ∧ nodes h !! top = Some ntop ∧
              parent ntop = None.
Proof.
  remember (Some r) as p eqn:Hp. intros Hl. revert r Hp.
  induction Hl as [|p n l Hn Hc Hl IH]; intros r [= ->].
  destruct (parent n) as [q|] eqn:Hq.
  - destruct (IH q eq_refl) as (top & ntop & Hlast & Htop & Hnil).
    exists top, ntop. split; [|done].
    inversion Hl; subst. simpl in *. done.
  - inversion Hl; subst. by exists r, n.
Qed.

Lemma cloned_chain h0 h h' p rp :
  cloned h0 h h' p rp → ∀ l, lineage h0 p l →
  ∃ l', lineage h' rp l' ∧ Forall2 (copies h0 h h' ∅) l l'.
Proof.
  induction 1 as [|p n r a rp Hp Hr Ha Hr' Ha' _ IH]; intros l Hl;
    inversion Hl as [|? n' l0 Hp' Hc Hl0]; subst.
  - exists []. split; constructor.
  - rewrite Hp in Hp'. injection Hp' as <-.
    destruct (IH _ Hl0) as (l' & Hl' & Hall).
    exists (r :: l'). split.
    + econstructor; [done| |done]. simpl. apply bool_decide_eq_true. by eexists.
    + constructor; [|done]. eexists n, _, a.
      do 10 (split; [done|]). by rewrite (left_id_L ∅ (∪)).
Qed.

(** The chain that [match] returns, node by node. *)
Lemma result_chain h0 h h' t r ps lt :
  result_of h0 h h' t r ps → lineage h0 (Some t) lt →
  ∃ lr, lineage h' (Some r) lr ∧
        copies h0 h h' ps t r ∧
        Forall2 (copies h0 h h' ∅) (tail lt) (tail lr).
Proof.
  intros (n & a & rp & Ht & Hr & Ha & Hr' & Ha' & Hcl) Hl.
  inversion Hl as [|? n' l0 Ht' Hc Hl0]; subst.
  rewrite Ht in Ht'. injection Ht' as <-.
  destruct (cloned_chain _ _ _ _ _ Hcl _ Hl0) as (l' & Hl' & Hall).
  exists (r :: l'). split; [|split; [|done]].
  - econstructor; [done| |done]. simpl. apply bool_decide_eq_true. by eexists.
  - eexists n, _, a. by do 10 (split; [done|]).
Qed.

(** In a well-formed tree every tested node is somebody's child. *)
Lemma descent_tested h raw lim m tested t :
  descent h raw lim m tested t → ∀ d par,
  tree_ok d h par m = true →
  Forall (λ c, ∃ cn p, nodes h !! c = Some cn ∧ parent cn = Some p) tested.
Proof.
  assert (∀ d m cs,
    Forall (λ c, has_detector h c = true ∧ tree_ok d h (Some m) c = true) cs →
    Forall (λ c, ∃ cn p, nodes h !! c = Some cn ∧ parent cn = Some p) cs)
    as Hkids.
  { intros d m' cs Hcs. eapply Forall_impl; [done|]. intros c [_ Hc].
    destruct d as [|d]; [done|].
    apply tree_ok_S in Hc as (cn & Hcn & Hpar & _). by exists cn, m'. }
  induction 1 as [m n Hm Hall|m n before c after tested t Hm Hcs Hbefore Hacc _ IH];
    intros [|d] par Hok; try done;
    apply tree_ok_S in Hok as (n' & Hm' & _ & _ & _ & Hkid);
    rewrite Hm in Hm'; injection Hm' as <-.
  - by eapply Hkids.
  - rewrite Hcs in Hkid. pose proof (Hkids _ _ _ Hkid) as Hp.
    apply Forall_app in Hp as [Hp1 Hp2]. apply Forall_cons in Hp2 as [Hp2 _].
    apply Forall_app in Hkid as [_ Hkid]. apply Forall_cons in Hkid as [[_ Hc] _].
    apply Forall_app. split; [done|]. constructor; [done|]. by eapply IH.
Qed.

End views.

Section construction.
Context `{Imports}.

Lemma match_S fuel h m n raw lim :
  nodes h !! m = Some n →
  match_ (S fuel) h m raw lim =
    match_children (λ c, match_ fuel h c raw lim) (finish fuel h m n raw)
      h raw lim (slice_of h (children n)).
Proof. intros Hm. simpl. unfold load. by rewrite Hm. Qed.

Lemma match_children_cons descend fall h raw lim c cn d cs :
  nodes h !! c = Some cn → detector cn = Some d →
  match_children descend fall h raw lim (c :: cs) =
    logged (EDetect c raw lim)
      (if d raw lim then descend c
       else match_children descend fall h raw lim cs).
Proof. intros Hc Hd. simpl. unfold load. rewrite Hc. simpl. by rewrite Hd. Qed.

(** [Extend] on an allocated node while the mutex is free, step by step. *)
Lemma Extend_eq h m n det mimestr ext als :
  nodes h !! m = Some n → mu h = false →
  let parsed := ParseMediaType mimestr in
  let c := fresh (dom (nodes h)) in
  let a := fresh (dom (arrays h)) in
  let pa := fresh (dom (maps h)) in
  Extend h m det mimestr ext als =
    Done (mkHeap
            (<[m := with_children (Some a) n]>
               (<[c := mkMIME (mediatype parsed) als
                         (match mparams parsed with Some _ => Some pa | None => None end)
                         ext det None (Some m)]> (nodes h)))
            (match mparams parsed with
             | Some mp => <[pa := mp]> (maps h)
             | None => maps h
             end)
            (<[a := c :: slice_of h (children n)]> (arrays h))
            false,
          [ELock; EStoreChildren m a true; EUnlock]).
Proof.
  intros Hm Hmu. simpl.
  assert (m ≠ fresh (dom (nodes h))) as Hne.
  { intros Heq. rewrite Heq, fresh_lookup in Hm. done. }
  unfold Extend.
  destruct (mparams (ParseMediaType mimestr)) as [mp|]; simpl;
    unfold Lock; simpl; rewrite Hmu; simpl;
    unfold load; simpl; rewrite lookup_insert_ne by done; rewrite Hm; simpl;
    unfold store_children, store, load; simpl;
    rewrite lookup_insert_ne by done; rewrite Hm; simpl; done.
Qed.

Lemma Extend_locked h m det mimestr ext als :
  mu h = true → Extend h m det mimestr ext als = Diverge.
Proof.
  intros Hmu. unfold Extend.
  destruct (mparams (ParseMediaType mimestr)); simpl;
    unfold Lock; simpl; by rewrite Hmu.
Qed.

(** [Extend] on an allocated node changes that node, and otherwise only
    adds objects. *)
Lemma Extend_frame h m n det mimestr ext als h' evs :
  nodes h !! m = Some n →
  Extend h m det mimestr ext als = Done (h', evs) →
  (∀ x nx, x ≠ m → nodes h !! x = Some nx → nodes h' !! x = Some nx) ∧
  maps h ⊆ maps h' ∧ arrays h ⊆ arrays h'.
Proof.
  intros Hm Hrun. destruct (mu h) eqn:Hmu.
  { by rewrite Extend_locked in Hrun. }
  rewrite (Extend_eq h m n det mimestr ext als Hm Hmu) in Hrun.
  injection Hrun as <- _. simpl. split; [|split].
  - intros x nx Hne Hx. rewrite lookup_insert_ne by done.
    rewrite lookup_insert_ne; [done|].
    intros <-. by rewrite fresh_lookup in Hx.
  - destruct (mparams _); [|done]. apply insert_subseteq, fresh_lookup.
  - apply insert_subseteq, fresh_lookup.
Qed.

(** [Extend] with a detector keeps a well-formed tree well-formed, one
    level higher at most. *)
Lemma Extend_tree_ok h m n d3 mimestr ext als h' evs :
  nodes h !! m = Some n →
  Extend h m (Some d3) mimestr ext als = Done (h', evs) →
  ∀ d par x, tree_ok d h par x = true → tree_ok (S d) h' par x = true.
Proof.
  intros Hm Hrun.
  destruct (Extend_frame _ _ _ _ _ _ _ _ _ Hm Hrun) as (Hnodes & Hmaps & Harrs).
  destruct (mu h) eqn:Hmu; [by rewrite Extend_locked in Hrun|].
  rewrite (Extend_eq h m n (Some d3) mimestr ext als Hm Hmu) in Hrun.
  injection Hrun as <- _.
  set (c := fresh (dom (nodes h))) in *.
  set (a := fresh (dom (arrays h))) in *.
  set (nc := mkMIME _ _ _ _ _ _ _) in *.
  set (h' := mkHeap _ _ _ _) in *.
  assert (m ≠ c) as Hmc.
  { intros E. subst c. rewrite E, fresh_lookup in Hm. done. }
  assert (nodes h' !! m = Some (with_children (Some a) n)) as Hm'
    by apply lookup_insert_eq.
  assert (nodes h' !! c = Some nc) as Hc'.
  { subst h'. simpl. rewrite lookup_insert_ne by done. apply lookup_insert_eq. }
  assert (arrays h' !! a = Some (c :: slice_of h (children n))) as Ha'
    by apply lookup_insert_eq.
  assert (∀ x, has_detector h x = true → has_detector h' x = true) as Hhas.
  { intros x. unfold has_detector.
    destruct (nodes h !! x) as [nx|] eqn:Hx; [|done].
    destruct (decide (x = m)) as [->|Hne].
    - rewrite Hm'. rewrite Hm in Hx. injection Hx as <-. by destruct n.
    - by rewrite (Hnodes _ _ Hne Hx). }
  assert (tree_ok 1 h' (Some m) c = true) as Hleaf.
  { apply tree_ok_S. exists nc. do 2 (split; [done|]). split; [|done].
    subst nc h'. simpl. destruct (mparams _); [|done]. simpl.
    apply bool_decide_eq_true. rewrite lookup_insert_eq. by eexists. }
  assert (∀ d, tree_ok (S d) h' (Some m) c = true) as Hnew.
  { intros d. apply tree_ok_S. apply tree_ok_S in Hleaf as (nc' & ? & ? & ? & ? & Hk).
    exists nc'. do 4 (split; [done|]).
    replace (slice_of h' (children nc')) with (@nil loc); [done|].
    rewrite Hc' in *. by simplify_eq. }
  induction d as [|d IH]; intros par x Hok; [done|].
  apply tree_ok_S in Hok as (nx & Hx & Hparx & Hps & Hcs & Hall).
  apply tree_ok_S.
  destruct (decide (x = m)) as [->|Hne].
  - rewrite Hm in Hx. injection Hx as <-.
    exists (with_children (Some a) n). split; [done|]. split; [by destruct n|].
    split; [by eapply closed_map_mono|].
    split; [simpl; apply bool_decide_eq_true; by eexists|].
    change (slice_of h' (children (with_children (Some a) n)))
      with (default [] (arrays h' !! a)).
    rewrite Ha'. simpl. constructor.
    + split; [|apply Hnew].
      unfold has_detector. rewrite Hc'. apply bool_decide_eq_true. by eexists.
    + eapply Forall_impl; [done|]. intros y [Hy1 Hy2].
      split; [by apply Hhas|]. by apply IH.
  - exists nx. split; [by apply Hnodes|]. split; [done|].
    split; [by eapply closed_map_mono|]. split.
    { destruct (children nx) as [ca|]; simpl in *; [|done].
      apply bool_decide_eq_true in Hcs as [l Hl].
      apply bool_decide_eq_true. exists l. by eapply lookup_weaken. }
    rewrite (slice_of_mono h h') by done.
    eapply Forall_impl; [done|]. intros y [Hy1 Hy2].
    split; [by apply Hhas|]. by apply IH.
Qed.

(** [adopt] points every child to its parent and changes nothing else. *)
Lemma adopt_spec m cs : ∀ h,
  Forall (λ c, is_Some (nodes h !! c)) cs →
  ∃ h', adopt h m cs = Done h' ∧
        maps h' = maps h ∧ arrays h' = arrays h ∧ mu h' = mu h ∧
        ∀ x, nodes h' !! x =
             if decide (x ∈ cs) then with_parent (Some m) <$> nodes h !! x
             else nodes h !! x.
Proof.
  induction cs as [|c cs IH]; intros h Hall.
  - exists h. do 4 (split; [done|]). intros x.
    case_decide as Hx; [|done]. by apply elem_of_nil in Hx.
  - apply Forall_cons in Hall as [[nc Hc] Hall].
    set (h1 := mkHeap (<[c:=with_parent (Some m) nc]> (nodes h))
                      (maps h) (arrays h) (mu h)).
    destruct (IH h1) as (h' & Hrun & Hmaps & Harrs & Hmu & Hnodes).
    { eapply Forall_impl; [done|]. intros x Hx. subst h1. simpl.
      by apply lookup_insert_is_Some'; right. }
    exists h'. split.
    { simpl. unfold store, load. rewrite Hc. simpl. exact Hrun. }
    do 3 (split; [done|]). intros x. rewrite Hnodes. subst h1. simpl.
    destruct (decide (x = c)) as [->|Hne].
    + rewrite lookup_insert_eq, Hc. simpl.
      rewrite (decide_True (P := c ∈ c :: cs)) by apply list_elem_of_here.
      by case_decide.
    + rewrite lookup_insert_ne by done.
      destruct (decide (x ∈ cs)) as [Hin|Hin].
      * rewrite decide_True; [done|]. by apply list_elem_of_further.
      * rewrite decide_False; [done|].
        intros Hin'. apply elem_of_cons in Hin' as [?|?]; done.
Qed.

(** [newMIME] over the roots of well-formed trees, each with a detector,
    returns the root of a well-formed tree, one level higher. *)
Lemma newMIME_tree_ok h t ext det cs d :
  Forall (λ c, has_detector h c = true ∧ tree_ok d h None c = true) cs →
  ∃ m h',
    newMIME h t ext det cs = Done (m, h') ∧
    nodes h !! m = None ∧
    tree_ok (S d) h' None m = true.
Proof.
  intros Hcs.
  set (pa := fresh (dom (maps h))).
  set (a := fresh (dom (arrays h))).
  set (m := fresh (dom (nodes h))).
  set (sl := match cs with [] => None | _ => Some a end).
  set (arrs := match cs with [] => arrays h | _ => <[a:=cs]> (arrays h) end).
  set (nm := mkMIME t [] (Some pa) ext det sl None).
  set (h3 := mkHeap (<[m:=nm]> (nodes h)) (<[pa:=∅]> (maps h)) arrs (mu h)).
  assert (nodes h !! m = None) as Hm by apply fresh_lookup.
  assert (Forall (λ c, ∃ nc, nodes h !! c = Some nc ∧ parent nc = None) cs)
    as Halloc.
  { eapply Forall_impl; [done|]. intros c [_ Hc].
    destruct d as [|d]; [done|].
    apply tree_ok_S in Hc as (nc & ? & ? & _). by exists nc. }
  destruct (adopt_spec m cs h3) as (h4 & Hrun & Hmaps & Harrs & Hmu & Hnodes).
  { eapply Forall_impl; [done|]. intros c (nc & Hc & _). subst h3. simpl.
    apply lookup_insert_is_Some'. right. by eexists. }
  assert (newMIME h t ext det cs = Done (m, h4)) as Hnew.
  { clear -Hrun. unfold newMIME. subst h3 nm sl arrs a m pa.
    destruct cs as [|c0 cs0]; simpl in *.
    - by injection Hrun as <-.
    - unfold store, load in *. simpl in *.
      destruct (_ !! c0); simpl in *; [|done]. by rewrite Hrun. }
  assert (maps h ⊆ maps h4) as Hmsub.
  { rewrite Hmaps. subst h3. simpl. apply insert_subseteq, fresh_lookup. }
  assert (arrays h ⊆ arrays h4) as Hasub.
  { rewrite Harrs. subst h3 arrs. simpl. destruct cs; [done|].
    apply insert_subseteq, fresh_lookup. }
  assert (∀ x, x ∉ cs → x ≠ m → nodes h4 !! x = nodes h !! x) as Hsame.
  { intros x Hx Hne. rewrite Hnodes, decide_False by done.
    subst h3. simpl. by rewrite lookup_insert_ne. }
  assert (∀ x, has_detector h x = true → has_detector h4 x = true) as Hhas.
  { intros x. unfold has_detector. rewrite Hnodes.
    destruct (nodes h !! x) as [nx|] eqn:Hx; [|done].
    assert (nodes h3 !! x = Some nx) as ->.
    { subst h3. simpl. rewrite lookup_insert_ne; [done|]. congruence. }
    by case_decide. }
  assert (∀ d' y x, tree_ok d' h (Some y) x = true →
                    tree_ok d' h4 (Some y) x = true) as Hbelow.
  { induction d' as [|d' IH]; intros y x Hx; [done|].
    apply tree_ok_S in Hx as (nx & Hx & Hpar & Hps & Hsl & Hkids).
    apply tree_ok_S. exists nx. split.
    { rewrite Hsame; [done| |congruence].
      intros Hin. rewrite Forall_forall in Halloc.
      destruct (Halloc _ Hin) as (nc & Hc & Hnil). congruence. }
    split; [done|]. split; [by eapply closed_map_mono|]. split.
    { destruct (children nx) as [ca|]; simpl in *; [|done].
      apply bool_decide_eq_true in Hsl as [l Hl].
      apply bool_decide_eq_true. exists l. by eapply lookup_weaken. }
    rewrite (slice_of_mono h h4) by done.
    eapply Forall_impl; [done|]. intros z [Hz1 Hz2]. split; [by apply Hhas|].
    by apply IH. }
  exists m, h4. split; [done|]. split; [done|].
  apply tree_ok_S. exists nm. split.
  { rewrite Hnodes, decide_False.
    - subst h3. simpl. apply lookup_insert_eq.
    - intros Hin. rewrite Forall_forall in Halloc.
      destruct (Halloc _ Hin) as (nc & Hc & _). congruence. }
  split; [done|]. split.
  { simpl. apply bool_decide_eq_true. rewrite Hmaps. subst h3. simpl.
    rewrite lookup_insert_eq. by eexists. }
  assert (slice_of h4 sl = cs) as Hslice.
  { subst sl. unfold slice_of. rewrite Harrs. subst h3 arrs. simpl.
    destruct cs; [done|]. by rewrite lookup_insert_eq. }
  split.
  { subst sl. destruct cs; [done|]. simpl. apply bool_decide_eq_true.
    rewrite Harrs. subst h3 arrs. simpl. rewrite lookup_insert_eq. by eexists. }
  change (children nm) with sl. rewrite Hslice.
  apply Forall_forall. intros c Hin.
  rewrite Forall_forall in Hcs. destruct (Hcs _ Hin) as [Hdet Hc].
  split; [by apply Hhas|].
  destruct d as [|d]; [done|].
  apply tree_ok_S in Hc as (nc & Hc & Hpar & Hps & Hsl & Hkids).
  apply tree_ok_S. exists (with_parent (Some m) nc). split.
  { rewrite Hnodes, decide_True by done. subst h3. simpl.
    rewrite lookup_insert_ne by congruence. by rewrite Hc. }
  split; [done|]. split; [by eapply closed_map_mono|]. split.
  { destruct nc as [? ? ? ? ? [ca|] ?]; simpl in *; [|done].
    apply bool_decide_eq_true in Hsl as [l Hl].
    apply bool_decide_eq_true. exists l. by eapply lookup_weaken. }
  change (children (with_parent (Some m) nc)) with (children nc).
  rewrite (slice_of_mono h h4) by done.
  eapply Forall_impl; [done|]. intros z [Hz1 Hz2]. split; [by apply Hhas|].
  by apply Hbelow.
Qed.

End construction.

Section claims.
Context `{Imports}.

Lemma lineage_ancestors h r chain :
  lineage h (Some r) chain →
  ∀ fuel, length chain ≤ fuel → ancestors fuel h r = Done chain.
Proof.
  remember (Some r) as p eqn:Hp. intros Hl. revert r Hp.
  induction Hl as [|p n l Hn Hc Hl IH]; intros r [= ->] [|fuel] Hfuel;
    simpl in *; [lia|].
  unfold Parent, load. rewrite Hn. simpl.
  destruct (parent n) as [q|].
  - rewrite (IH q eq_refl) by lia. done.
  - by inversion Hl.
Qed.

Lemma descent_stops h raw lim m tested t :
  descent h raw lim m tested t →
  ∃ nt, nodes h !! t = Some nt ∧
        Forall (rejects h raw lim) (slice_of h (children nt)).
Proof. induction 1; eauto. Qed.

(** C1.  Whenever [match] returns, on any heap, it has stopped at the
    node that the depth-first first-match descent from the root
    selects: the children of the current node are tested in list order,
    the first one that accepts is descended into, and a node none of
    whose children accepts is where it stops.  The detectors called are
    those of [tested] and no others, in this order, so no sibling after
    an accepting child is tested; the descent is unique; and the result
    carries the type, aliases and extension of the node where it
    stopped.  On a well-formed tree [match] does return, and the root is
    not among the tested nodes. *)
Theorem match_first_match_descent h root raw lim :
  (∀ fuel r h' tr,
     match_ fuel h root raw lim = Done (r, h', tr) →
     ∃ t nt tested nr,
       descent h raw lim root tested t ∧
       (∀ tested' t', descent h raw lim root tested' t' →
                      t' = t ∧ tested' = tested) ∧
       nodes h !! t = Some nt ∧
       Forall (rejects h raw lim) (slice_of h (children nt)) ∧
       tr = detections raw lim tested ++ (sniff (typ nt) raw).2 ∧
       nodes h' !! r = Some nr ∧
       typ nr = typ nt ∧ aliases nr = aliases nt ∧
       extension nr = extension nt) ∧
  (∀ d, tree_ok d h None root = true →
     ∃ t tested r h' tr,
       descent h raw lim root tested t ∧ (root ∉ tested) ∧
       ∀ fuel, 2 * d ≤ fuel → match_ fuel h root raw lim = Done (r, h', tr)).
Proof.
  split.
  - intros fuel r h' tr Hrun.
    destruct (match_sound _ _ _ _ _ _ _ _ Hrun)
      as (t & nt & tested & nr & Hdesc & Ht & Htr & Hr & ? & ? & ?).
    destruct (descent_stops _ _ _ _ _ _ Hdesc) as (nt' & Ht' & Hrej).
    rewrite Ht in Ht'. injection Ht' as <-.
    exists t, nt, tested, nr. split; [done|].
    split; [by apply descent_unique|]. done.
  - intros d Hok.
    destruct (match_spec d h h None root [] raw lim Hok (lineage_nil _))
      as (t & nt & lt & tested & r & h' & Hdesc & _ & _ & _ & _ & _ & _ & Hrun);
      [done|].
    eexists t, tested, r, h', _. split; [done|]. split.
    + intros Hin.
      pose proof (descent_tested _ _ _ _ _ _ Hdesc _ _ Hok) as Hpar.
      rewrite Forall_forall in Hpar.
      destruct (Hpar _ Hin) as (cn & p & Hcn & Hp).
      destruct d as [|d]; [done|].
      apply tree_ok_S in Hok as (n & Hn & Hnil & _). congruence.
    + intros fuel Hfuel. apply Hrun. simpl. lia.
Qed.

(** C2.  On a well-formed tree [match] returns a result for every
    buffer, the empty one included, and every read limit; following
    [Parent()] from the result visits finitely many nodes and ends at one
    whose parent is nil. *)
Theorem match_total d h root raw lim :
  tree_ok d h None root = true →
  ∃ r h' tr chain top ntop,
    (∀ fuel, 2 * d ≤ fuel → match_ fuel h root raw lim = Done (r, h', tr)) ∧
    (∀ fuel, length chain ≤ fuel → ancestors fuel h' r = Done chain) ∧
    last chain = Some top ∧ nodes h' !! top = Some ntop ∧ parent ntop = None.
Proof.
  intros Hok.
  destruct (match_spec d h h None root [] raw lim Hok (lineage_nil _))
    as (t & nt & lt & tested & r & h' & Hdesc & Ht & Hlt & Hres & _ & _ & _ & Hrun);
    [done|].
  destruct (result_chain _ _ _ _ _ _ _ Hres Hlt) as (lr & Hlr & _).
  destruct (lineage_last _ _ _ Hlr) as (top & ntop & Hlast & Htop & Hnil).
  eexists r, h', _, lr, top, ntop.
  split; [|split; [by apply lineage_ancestors|done]].
  intros fuel Hfuel. apply Hrun. simpl. lia.
Qed.

(** C3.  [Extend] on an allocated node [m], with the mutex free, returns
    and leaves the mutex free.  It makes a new node [c] with the given
    detector, extension and aliases, the parsed type, parent [m] and no
    children.  Between locking and unlocking it points the children of
    [m] to a new array [a] that holds [c] followed by the former
    children; every array of the former heap, the former children array
    among them, is unchanged.  Afterwards the detector of [c] is the
    first one a match at [m] calls: if it accepts, the match stops at [c]
    (the node has no children), and if it rejects, the former children
    are tried next.  In particular, where before the call the first
    child rejected and the second accepted so that the match went into
    the second, after the call with an accepting detector it goes into
    [c]. *)
Theorem Extend_prepends h m n det mimestr ext als :
  nodes h !! m = Some n → mu h = false →
  ∃ h' c a nc,
    Extend h m det mimestr ext als =
      Done (h', [ELock; EStoreChildren m a true; EUnlock]) ∧
    mu h' = false ∧
    nodes h !! c = None ∧ arrays h !! a = None ∧
    nodes h' !! c = Some nc ∧
    detector nc = det ∧ extension nc = ext ∧ aliases nc = als ∧
    typ nc = mediatype (ParseMediaType mimestr) ∧
    parent nc = Some m ∧ slice_of h' (children nc) = [] ∧
    nodes h' !! m = Some (with_children (Some a) n) ∧
    arrays h' !! a = Some (c :: slice_of h (children n)) ∧
    (∀ a' cs, arrays h !! a' = Some cs → arrays h' !! a' = Some cs) ∧
    (∀ raw lim d3 fuel, det = Some d3 → d3 raw lim = true →
       match_ (S (S fuel)) h' m raw lim =
         logged (EDetect c raw lim) (finish fuel h' c nc raw)) ∧
    (∀ raw lim d3 fuel, det = Some d3 → d3 raw lim = false →
       match_ (S fuel) h' m raw lim =
         logged (EDetect c raw lim)
           (match_children (λ x, match_ fuel h' x raw lim)
              (finish fuel h' m (with_children (Some a) n) raw)
              h' raw lim (slice_of h (children n)))) ∧
    (∀ raw lim c1 c2 rest fuel,
       slice_of h (children n) = c1 :: c2 :: rest →
       rejects h raw lim c1 → accepts h raw lim c2 →
       match_ (S fuel) h m raw lim =
         logged (EDetect c1 raw lim)
           (logged (EDetect c2 raw lim) (match_ fuel h c2 raw lim))).
Proof.
  intros Hm Hmu.
  pose proof (Extend_eq h m n det mimestr ext als Hm Hmu) as Heq.
  simpl in Heq.
  set (c := fresh (dom (nodes h))) in *.
  set (a := fresh (dom (arrays h))) in *.
  set (nc := mkMIME _ _ _ _ _ _ _) in Heq.
  set (h' := mkHeap _ _ _ _) in Heq.
  assert (m ≠ c) as Hne.
  { intros E. subst c. rewrite E, fresh_lookup in Hm. done. }
  assert (nodes h' !! m = Some (with_children (Some a) n)) as Hm'
    by apply lookup_insert_eq.
  assert (nodes h' !! c = Some nc) as Hc'.
  { subst h'. simpl. rewrite lookup_insert_ne by done. apply lookup_insert_eq. }
  assert (slice_of h' (Some a) = c :: slice_of h (children n)) as Hsl.
  { subst h'. simpl. by rewrite lookup_insert_eq. }
  exists h', c, a, nc. split; [done|]. split; [done|].
  split; [apply fresh_lookup|]. split; [apply fresh_lookup|].
  split; [done|]. do 6 (split; [done|]). split; [done|].
  split; [apply lookup_insert_eq|]. split.
  { intros a' cs Ha'. subst h'. simpl. rewrite lookup_insert_ne; [done|].
    intros <-. subst a. by rewrite fresh_lookup in Ha'. }
  split; [|split].
  - intros raw lim d3 fuel -> Hacc.
    rewrite (match_S _ _ _ _ _ _ Hm').
    change (children (with_children (Some a) n)) with (Some a). rewrite Hsl.
    rewrite (match_children_cons _ _ _ _ _ _ _ _ _ Hc' eq_refl), Hacc.
    by rewrite (match_S _ _ _ _ _ _ Hc').
  - intros raw lim d3 fuel -> Hrej.
    rewrite (match_S _ _ _ _ _ _ Hm').
    change (children (with_children (Some a) n)) with (Some a). rewrite Hsl.
    by rewrite (match_children_cons _ _ _ _ _ _ _ _ _ Hc' eq_refl), Hrej.
  - intros raw lim c1 c2 rest fuel Hcs (n1 & d1 & Hn1 & Hd1 & Hr1)
      (n2 & d2 & Hn2 & Hd2 & Hr2).
    rewrite (match_S _ _ _ _ _ _ Hm), Hcs.
    rewrite (match_children_cons _ _ _ _ _ _ _ _ _ Hn1 Hd1), Hr1.
    by rewrite (match_children_cons _ _ _ _ _ _ _ _ _ Hn2 Hd2), Hr2.
Qed.

(** C9.  When [mime.ParseMediaType] reports an error for the type
    string, and with it returns a nil map as the standard library does,
    [Extend] still returns normally, its only results being the new
    heap and the lock events: the new node is registered as first child
    of [m] and its parameter set is empty. *)
Theorem Extend_parse_failure h m n det mimestr ext als :
  nodes h !! m = Some n → mu h = false →
  merr (ParseMediaType mimestr) = true →
  mparams (ParseMediaType mimestr) = None →
  ∃ h' c a nc rest,
    Extend h m det mimestr ext als =
      Done (h', [ELock; EStoreChildren m a true; EUnlock]) ∧
    nodes h !! c = None ∧
    nodes h' !! c = Some nc ∧
    detector nc = det ∧ extension nc = ext ∧ aliases nc = als ∧
    params nc = None ∧ map_of h' (params nc) = ∅ ∧
    nodes h' !! m = Some (with_children (Some a) n) ∧
    slice_of h' (Some a) = c :: rest.
Proof.
  intros Hm Hmu _ Hnil.
  pose proof (Extend_eq h m n det mimestr ext als Hm Hmu) as Heq.
  simpl in Heq. rewrite Hnil in Heq.
  set (c := fresh (dom (nodes h))) in *.
  set (a := fresh (dom (arrays h))) in *.
  assert (m ≠ c) as Hne.
  { intros E. subst c. rewrite E, fresh_lookup in Hm. done. }
  eexists _, c, a, _, _. split; [exact Heq|]. simpl.
  split; [apply fresh_lookup|].
  split; [rewrite lookup_insert_ne by done; apply lookup_insert_eq|].
  do 5 (split; [done|]).
  split; [apply lookup_insert_eq|]. by rewrite lookup_insert_eq.
Qed.

Lemma set_param_eq h r n a k v :
  nodes h !! r = Some n → params n = Some a →
  set_param h r k v =
    Done (mkHeap (nodes h) (<[a := <[k:=v]> (map_of h (Some a))]> (maps h))
                 (arrays h) (mu h)).
Proof. intros Hr Ha. unfold set_param, load. rewrite Hr. simpl. by rewrite Ha. Qed.

(** Writing a parameter of a result leaves the objects of the tree's
    heap alone and is invisible through every other map reference. *)
Lemma set_param_result h0 h hr h2 t r ps k v :
  result_of h0 h hr t r ps → h0 ⊑ h → hr ⊑ h2 → h0 ⊑ h2 →
  ∃ a nr h3,
    nodes h2 !! r = Some nr ∧ params nr = Some a ∧
    maps h !! a = None ∧ is_Some (maps hr !! a) ∧
    set_param h2 r k v = Done h3 ∧ h0 ⊑ h3 ∧ nodes h3 = nodes h2 ∧
    map_of h3 (Some a) !! k = Some v ∧
    (∀ p, p ≠ Some a → map_of h3 p = map_of h2 p).
Proof.
  intros (n & a & rp & Ht & Hr & Ha & Hr' & Ha' & _) (_ & Hm0 & _)
    (Hn & Hm & _) (Hn2 & Hm2 & Ha2).
  pose proof (lookup_weaken _ _ _ _ Hr' Hn) as Hr2.
  eexists a, _, _. split; [exact Hr2|]. split; [done|]. split; [done|].
  split; [by eexists|].
  split; [by apply (set_param_eq _ _ _ a _ _ Hr2)|].
  split; [|split; [done|split]].
  - split; [done|]. split; [|done]. simpl.
    apply insert_subseteq_r; [by eapply lookup_weaken_None|done].
  - simpl. rewrite lookup_insert_eq. simpl. apply lookup_insert_eq.
  - intros [a'|] Hne; [|done]. simpl.
    rewrite lookup_insert_ne; [done|congruence].
Qed.

(** C4.  Take two results of two successive matches on a well-formed
    tree and write a parameter of either one.  The write succeeds and
    shows in the written result; the parameters, type, aliases and
    extension read from the other result are what they were; and a
    later match of any input on the tree returns the type, aliases,
    parameters and extension it returned before the write. *)
Theorem results_independent d h0 root raw1 lim1 raw2 lim2 f1 f2
    r1 h1 tr1 r2 h2 tr2 k v :
  tree_ok d h0 None root = true →
  match_ f1 h0 root raw1 lim1 = Done (r1, h1, tr1) →
  match_ f2 h1 root raw2 lim2 = Done (r2, h2, tr2) →
  (∃ h3 n1 w2,
     set_param h2 r1 k v = Done h3 ∧
     nodes h3 !! r1 = Some n1 ∧ map_of h3 (params n1) !! k = Some v ∧
     view h2 r2 = Done w2 ∧ view h3 r2 = Done w2 ∧
     ∀ raw lim, ∃ w, ∀ fuel, 2 * d ≤ fuel →
       view_of (match_ fuel h3 root raw lim) = Done w ∧
       view_of (match_ fuel h2 root raw lim) = Done w) ∧
  (∃ h3 n2 w1,
     set_param h2 r2 k v = Done h3 ∧
     nodes h3 !! r2 = Some n2 ∧ map_of h3 (params n2) !! k = Some v ∧
     view h2 r1 = Done w1 ∧ view h3 r1 = Done w1 ∧
     ∀ raw lim, ∃ w, ∀ fuel, 2 * d ≤ fuel →
       view_of (match_ fuel h3 root raw lim) = Done w ∧
       view_of (match_ fuel h2 root raw lim) = Done w).
Proof.
  intros Hok Hrun1 Hrun2.
  destruct (match_done d h0 h0 root raw1 lim1 f1 r1 h1 tr1 Hok) as
    (t1 & nt1 & lt1 & ts1 & _ & _ & _ & Hres1 & Hincl1 & _); [done..|].
  destruct (match_done d h0 h1 root raw2 lim2 f2 r2 h2 tr2 Hok) as
    (t2 & nt2 & lt2 & ts2 & _ & _ & _ & Hres2 & Hincl2 & _); [done..|].
  assert (h0 ⊑ h2) as Hincl02 by by etrans.
  destruct (set_param_result h0 h0 h1 h2 t1 r1 _ k v Hres1)
    as (a1 & n1 & h3 & Hn1 & Hp1 & Hfresh1 & [m1 Hm1] & Hset1 & Hincl3
        & Hnodes3 & Hk1 & Hother1); [done..|].
  destruct (set_param_result h0 h1 h2 h2 t2 r2 _ k v Hres2)
    as (a2 & n2 & h4 & Hn2 & Hp2 & Hfresh2 & _ & Hset2 & Hincl4
        & Hnodes4 & Hk2 & Hother2); [done..|].
  assert (a1 ≠ a2) as Hne by congruence.
  split.
  - eexists h3, n1, _. split; [done|]. rewrite Hnodes3. split; [done|].
    split; [by rewrite Hp1|].
    split; [by unfold view, load; rewrite Hn2|]. split.
    + unfold view, load. rewrite Hnodes3, Hn2. simpl.
      rewrite Hother1; [done|congruence].
    + intros raw lim. by apply (match_frame d h0).
  - eexists h4, n2, _. split; [done|]. rewrite Hnodes4. split; [done|].
    split; [by rewrite Hp2|].
    split; [by unfold view, load; rewrite Hn1|]. split.
    + unfold view, load. rewrite Hnodes4, Hn1. simpl.
      rewrite Hother2; [done|congruence].
    + intros raw lim. by apply (match_frame d h0).
Qed.

Lemma needsCharset_family t :
  TEXT ≠ HTML → TEXT ≠ XML → HTML ≠ XML →
  needsCharset !! t = family_sniffer t.
Proof.
  intros H1 H2 H3. unfold needsCharset, family_sniffer.
  repeat case_decide; subst;
    repeat (rewrite lookup_insert_eq || rewrite lookup_insert_ne by congruence
            || rewrite lookup_empty);
    done.
Qed.

(** C5, as amended.  The sniffer of package [charset] is called exactly
    for a final node of one of the three families, once, on the whole
    buffer.  A non-empty label becomes the "charset" parameter of the
    result; an empty label, or a type outside the three families, adds
    nothing, and the parameters of the result are then those the node
    was built with, a "charset" among them if it has one. *)
Theorem charset_augmentation d h root raw lim :
  tree_ok d h None root = true →
  TEXT ≠ HTML → TEXT ≠ XML → HTML ≠ XML →
  ∃ t nt tested r h' nr,
    descent h raw lim root tested t ∧ nodes h !! t = Some nt ∧
    nodes h' !! r = Some nr ∧
    match family_sniffer (typ nt) with
    | Some f =>
        (∀ fuel, 2 * d ≤ fuel →
           match_ fuel h root raw lim =
             Done (r, h', detections raw lim tested ++ [ECharset (typ nt) raw])) ∧
        map_of h' (params nr) =
          if String.eqb (f raw) EmptyString then map_of h (params nt)
          else <["charset" := f raw]> (map_of h (params nt))
    | None =>
        (∀ fuel, 2 * d ≤ fuel →
           match_ fuel h root raw lim =
             Done (r, h', detections raw lim tested)) ∧
        map_of h' (params nr) = map_of h (params nt)
    end.
Proof.
  intros Hok H1 H2 H3.
  destruct (match_spec d h h None root [] raw lim Hok (lineage_nil _))
    as (t & nt & lt & tested & r & h' & Hdesc & Ht & Hlt & Hres & _ & _ & _ & Hrun);
    [done|].
  destruct Hres as (n & a & rp & Ht' & _ & _ & Hr & Ha & _).
  rewrite Ht in Ht'. injection Ht' as <-.
  eexists t, nt, tested, r, h', _.
  split; [done|]. split; [done|]. split; [exact Hr|]. simpl. rewrite Ha. simpl.
  unfold sniff in *. rewrite needsCharset_family in * by done.
  destruct (family_sniffer (typ nt)) as [f|]; simpl in *.
  - split; [intros fuel Hfuel; apply Hrun; lia|].
    destruct (String.eqb (f raw) EmptyString).
    + by rewrite (left_id_L ∅ (∪)).
    + by rewrite <-insert_union_l, (left_id_L ∅ (∪)).
  - split; [|by rewrite (left_id_L ∅ (∪))].
    intros fuel Hfuel. rewrite Hrun by lia. by rewrite app_nil_r.
Qed.

(** C6.  The map of the result is a new one: it holds the parameters of
    the final node overlaid with the optional ones, which win where both
    have the key.  Each further node of the result's chain copies the
    corresponding ancestor and has a new map with exactly that
    ancestor's parameters. *)
Theorem result_parameters d h root raw lim :
  tree_ok d h None root = true →
  ∃ t nt lt tested r h' tr lr,
    descent h raw lim root tested t ∧ nodes h !! t = Some nt ∧
    (∀ fuel, 2 * d ≤ fuel → match_ fuel h root raw lim = Done (r, h', tr)) ∧
    lineage h (Some t) lt ∧ lineage h' (Some r) lr ∧
    copies h h h' (sniff (typ nt) raw).1 t r ∧
    (∀ k, ((sniff (typ nt) raw).1 ∪ map_of h (params nt)) !! k =
          match (sniff (typ nt) raw).1 !! k with
          | Some v => Some v
          | None => map_of h (params nt) !! k
          end) ∧
    Forall2 (copies h h h' ∅) (tail lt) (tail lr) ∧
    Forall2 (λ p rp, ∃ n nr, nodes h !! p = Some n ∧ nodes h' !! rp = Some nr ∧
                             map_of h' (params nr) = map_of h (params n))
            (tail lt) (tail lr).
Proof.
  intros Hok.
  destruct (match_spec d h h None root [] raw lim Hok (lineage_nil _))
    as (t & nt & lt & tested & r & h' & Hdesc & Ht & Hlt & Hres & _ & _ & _ & Hrun);
    [done|].
  destruct (result_chain _ _ _ _ _ _ _ Hres Hlt) as (lr & Hlr & Hhead & Htail).
  eexists t, nt, lt, tested, r, h', _, lr.
  split; [done|]. split; [done|].
  split; [intros fuel Hfuel; apply Hrun; simpl; lia|].
  split; [done|]. split; [done|]. split; [done|]. split.
  { intros k. rewrite lookup_union.
    by destruct (_ !! k), (_ !! k). }
  split; [done|].
  eapply Forall2_impl; [done|].
  intros p rp (n & nr & a & Hp & Hrp & _ & _ & _ & _ & _ & _ & _ & Hpa & Ha).
  exists n, nr. split; [done|]. split; [done|].
  rewrite Hpa. simpl. by rewrite Ha, (left_id_L ∅ (∪)).
Qed.

Lemma Is_iff m expected :
  Is m expected = true ↔
  mediatype (ParseMediaType expected) = typ m ∨
  mediatype (ParseMediaType expected) ∈ aliases m.
Proof.
  unfold Is. destruct (String.eqb_spec (mediatype (ParseMediaType expected)) (typ m))
    as [Heq|Hne].
  - split; [by left|done].
  - rewrite existsb_exists. split.
    + intros (alias & Hin & Heq). right.
      apply String.eqb_eq in Heq as <-. by apply list_elem_of_In.
    + intros [?|Hin]; [done|]. eexists. split; [by apply list_elem_of_In|].
      apply String.eqb_refl.
Qed.

(** C7.  For an expected string that parses, [Is] holds exactly when the
    parsed base type, parameters dropped, equals the type of the node or
    one of its aliases, which is what the specification's wording of
    [Is] computes; so on a node of type text/html it holds for
    "text/html; charset=UTF-8", which parses to the base type
    text/html. *)
Theorem Is_parsed m expected :
  merr (ParseMediaType expected) = false →
  (Is m expected = true ↔
     mediatype (ParseMediaType expected) = typ m ∨
     mediatype (ParseMediaType expected) ∈ aliases m) ∧
  Is m expected = stated_Is m expected ∧
  (mediatype (ParseMediaType "text/html; charset=UTF-8") = "text/html" →
   typ m = "text/html" → Is m "text/html; charset=UTF-8" = true).
Proof.
  intros Hok. split; [apply Is_iff|]. split.
  - unfold Is, stated_Is. by rewrite Hok.
  - intros Hparsed Htyp. apply Is_iff. left. congruence.
Qed.

(** C8, as amended.  For an expected string that does not parse, [Is]
    compares the string that [mime.ParseMediaType] returns together with
    its error, not the string as given, with the type of the node and
    each of its aliases. *)
Theorem Is_unparsed m expected :
  merr (ParseMediaType expected) = true →
  Is m expected = true ↔
    mediatype (ParseMediaType expected) = typ m ∨
    mediatype (ParseMediaType expected) ∈ aliases m.
Proof. intros _. apply Is_iff. Qed.

(** C10.  Every node of the chain that a match returns is a node the
    tree's heap does not have, with no children and no detector; its
    parent is the next node of the chain or nil.  [Extend] on the
    result, which returns when the mutex is free, changes no node but
    the result itself and leaves every object of the tree's heap as it
    was, and every later match on the tree returns the type, aliases,
    parameters and extension that it returns without that call. *)
Theorem result_is_private d h root raw lim f r h1 tr :
  tree_ok d h None root = true →
  match_ f h root raw lim = Done (r, h1, tr) →
  (∃ chain,
     lineage h1 (Some r) chain ∧
     Forall (λ x, ∃ nx, nodes h1 !! x = Some nx ∧ nodes h !! x = None ∧
                        slice_of h1 (children nx) = [] ∧ children nx = None ∧
                        detector nx = None) chain) ∧
  ∀ det mimestr ext als,
    (mu h = false →
     ∃ h2 evs, Extend h1 r det mimestr ext als = Done (h2, evs)) ∧
    ∀ h2 evs,
      Extend h1 r det mimestr ext als = Done (h2, evs) →
      (∀ x nx, x ≠ r → nodes h1 !! x = Some nx → nodes h2 !! x = Some nx) ∧
      h ⊑ h2 ∧
      ∀ raw' lim', ∃ w, ∀ fuel, 2 * d ≤ fuel →
        view_of (match_ fuel h2 root raw' lim') = Done w ∧
        view_of (match_ fuel h root raw' lim') = Done w.
Proof.
  intros Hok Hrun.
  destruct (match_done d h h root raw lim f r h1 tr Hok) as
    (t & nt & lt & ts & _ & Ht & Hlt & Hres & Hincl & _ & Hmu & _); [done..|].
  destruct (result_chain _ _ _ _ _ _ _ Hres Hlt) as (lr & Hlr & Hhead & Htail).
  split.
  - exists lr. split; [done|].
    inversion Hlr as [|? nr lr' Hr Hc Hlr']; subst. simpl in Htail.
    constructor.
    + destruct Hhead as (n & nr' & a & _ & Hr' & Hfresh & _ & _ & _ & _ & Hdet & Hch & _).
      exists nr'. by rewrite Hch.
    + clear -Htail. induction Htail as [|p x ps xs Hx _ IH]; constructor; [|done].
      destruct Hx as (n & nx & a & _ & Hx & Hfresh & _ & _ & _ & _ & Hdet & Hch & _).
      exists nx. by rewrite Hch.
  - intros det mimestr ext als.
    destruct Hres as (n & a & rp & _ & Hfresh & _ & Hr & _).
    split.
    { intros Hfree. rewrite <-Hmu in Hfree.
      pose proof (Extend_eq _ _ _ det mimestr ext als Hr Hfree) as Heq.
      simpl in Heq. eauto. }
    intros h2 evs Hext.
    destruct (Extend_frame _ _ _ _ _ _ _ _ _ Hr Hext) as (Hnodes & Hmaps & Harrs).
    destruct Hincl as (Hn1 & Hm1 & Ha1).
    assert (h ⊑ h2) as Hincl2.
    { split; [|split; by etrans].
      apply map_subseteq_spec. intros x nx Hx. apply Hnodes; [congruence|].
      by eapply lookup_weaken. }
    split; [done|]. split; [done|].
    intros raw' lim'. by apply (match_frame d h).
Qed.

(** X1.  Determinism: two matches of the same buffer, the second on the heap
    the first one left, call the same detectors and sniffer and return
    two different nodes that show the same type, aliases, parameters and
    extension. *)
Theorem match_deterministic d h root raw lim f1 f2 r1 h1 tr1 r2 h2 tr2 :
  tree_ok d h None root = true →
  match_ f1 h root raw lim = Done (r1, h1, tr1) →
  match_ f2 h1 root raw lim = Done (r2, h2, tr2) →
  ∃ w, view h1 r1 = Done w ∧ view h2 r2 = Done w ∧ tr1 = tr2 ∧ r1 ≠ r2.
Proof.
  intros Hok Hrun1 Hrun2.
  destruct (match_done d h h root raw lim f1 r1 h1 tr1 Hok) as
    (t1 & nt1 & lt1 & ts1 & Hd1 & Ht1 & _ & Hres1 & Hincl1 & _ & _ & ->);
    [done..|].
  destruct (match_done d h h1 root raw lim f2 r2 h2 tr2 Hok) as
    (t2 & nt2 & lt2 & ts2 & Hd2 & Ht2 & _ & Hres2 & Hincl2 & _ & _ & ->);
    [done..|].
  destruct (descent_unique _ _ _ _ _ _ Hd1 _ _ Hd2) as [-> ->].
  rewrite Ht1 in Ht2. injection Ht2 as <-.
  eexists. split; [by eapply result_view|]. split; [by eapply result_view|].
  split; [done|].
  destruct Hres1 as (? & ? & ? & _ & _ & _ & Hr1 & _).
  destruct Hres2 as (? & ? & ? & _ & Hr2 & _).
  intros ->. by rewrite Hr1 in Hr2.
Qed.

End claims.

(** * Listing and searching the tree *)

Section listing.

Lemma lineage_det h p l1 :
  lineage h p l1 → ∀ l2, lineage h p l2 → l1 = l2.
Proof.
  induction 1 as [|p n l Hn Hc Hl IH]; intros l2 H2;
    inversion H2 as [|? n' l' Hn' Hc' Hl']; subst; [done|].
  rewrite Hn in Hn'. injection Hn' as <-. f_equal. by apply IH.
Qed.

Lemma tree_ok_lineage d h par m l :
  tree_ok d h par m = true → lineage h par l → lineage h (Some m) (m :: l).
Proof.
  destruct d as [|d]; [done|].
  intros (n & Hn & <- & Hps & _)%tree_ok_S Hl. by econstructor.
Qed.

Lemma tree_ok_child d h par m n c :
  tree_ok (S d) h par m = true → nodes h !! m = Some n →
  c ∈ slice_of h (children n) →
  has_detector h c = true ∧ tree_ok d h (Some m) c = true.
Proof.
  intros (n' & Hm' & _ & _ & _ & Hall)%tree_ok_S Hm Hc.
  rewrite Hm in Hm'. injection Hm' as <-.
  rewrite Forall_forall in Hall. by apply Hall.
Qed.

(** In a well-formed tree the ancestors of a node below [m] pass
    through [m]. *)
Lemma below_lineage h m x :
  below h m x → ∀ d par l,
  tree_ok d h par m = true → lineage h par l →
  ∃ pre, lineage h (Some x) (pre ++ m :: l).
Proof.
  induction 1 as [m|m n c x Hm Hc _ IH]; intros d par l Hok Hl.
  - exists []. by eapply tree_ok_lineage.
  - destruct d as [|d]; [done|].
    pose proof (tree_ok_lineage _ _ _ _ _ Hok Hl) as Hlm.
    destruct (tree_ok_child _ _ _ _ _ _ Hok Hm Hc) as [_ Hokc].
    destruct (IH _ _ _ Hokc Hlm) as [pre Hpre].
    exists (pre ++ [c]). by rewrite <-app_assoc.
Qed.

Lemma below_alloc h m x :
  below h m x → ∀ d par, tree_ok d h par m = true → is_Some (nodes h !! x).
Proof.
  induction 1 as [m|m n c x Hm Hc _ IH]; intros [|d] par Hok; try done.
  - apply tree_ok_S in Hok as (n & Hm & _). by eexists.
  - destruct (tree_ok_child _ _ _ _ _ _ Hok Hm Hc) as [_ Hokc]. by eapply IH.
Qed.

(** No node is below one of its own children. *)
Lemma below_child_ne d h par m l n c x :
  tree_ok d h par m = true → lineage h par l →
  nodes h !! m = Some n → c ∈ slice_of h (children n) →
  below h c x → x ≠ m.
Proof.
  intros Hok Hl Hm Hc Hx ->.
  destruct d as [|d]; [done|].
  pose proof (tree_ok_lineage _ _ _ _ _ Hok Hl) as Hlm.
  destruct (tree_ok_child _ _ _ _ _ _ Hok Hm Hc) as [_ Hokc].
  destruct (below_lineage _ _ _ Hx _ _ _ Hokc Hlm) as [pre Hpre].
  pose proof (lineage_det _ _ _ Hlm _ Hpre) as Heq.
  apply (f_equal length) in Heq. rewrite length_app in Heq. simpl in Heq. lia.
Qed.


Lemma below_trans h m x y : below h m x → below h x y → below h m y.
Proof.
  induction 1 as [m|m n c x Hm Hc _ IH]; [done|].
  intros Hy. econstructor; [done..|]. by apply IH.
Qed.

Lemma descent_below h raw lim m tested t :
  descent h raw lim m tested t → below h m t.
Proof.
  induction 1 as [m n Hm _|m n before c after tested t Hm Hcs _ _ _ IH];
    [constructor|].
  econstructor; [done| |done].
  rewrite Hcs. apply elem_of_app. right. apply list_elem_of_here.
Qed.

(** ** [flatten] *)

Lemma flatten_children_spec rec (f : loc → list loc) cs : ∀ out,
  (∀ c, c ∈ cs → rec c = Done (f c)) →
  flatten_children rec out cs = Done (out ++ (cs ≫= f)).
Proof.
  induction cs as [|c cs IH]; intros out Hrec; simpl.
  - by rewrite app_nil_r.
  - rewrite Hrec by apply list_elem_of_here. simpl.
    rewrite IH by (intros; apply Hrec; by apply list_elem_of_further).
    by rewrite <-app_assoc.
Qed.

Lemma flatten_children_ext rec rec' cs : ∀ out,
  (∀ c, c ∈ cs → rec c = rec' c) →
  flatten_children rec out cs = flatten_children rec' out cs.
Proof.
  induction cs as [|c cs IH]; intros out Hrec; simpl; [done|].
  rewrite Hrec by apply list_elem_of_here.
  destruct (rec' c) as [l| |]; simpl; [|done..].
  apply IH. intros; apply Hrec; by apply list_elem_of_further.
Qed.

Lemma flatten_preorder d : ∀ h par m,
  tree_ok d h par m = true →
  ∀ fuel, d ≤ fuel → flatten fuel h m = Done (preorder d h m).
Proof.
  induction d as [|d IH]; intros h par m Hok [|fuel] Hfuel; try done; [lia|].
  pose proof Hok as (n & Hm & _)%tree_ok_S.
  simpl. unfold load. rewrite Hm. simpl.
  rewrite (flatten_children_spec _ (preorder d h)); [done|].
  intros c Hc. destruct (tree_ok_child _ _ _ _ _ _ Hok Hm Hc) as [_ Hokc].
  eapply IH; [done|lia].
Qed.


Lemma distinct_children_S d h m :
  distinct_children (S d) h m = true ↔
  ∃ n, nodes h !! m = Some n ∧ NoDup (slice_of h (children n)) ∧
       Forall (λ c, distinct_children d h c = true) (slice_of h (children n)).
Proof.
  simpl. destruct (nodes h !! m) as [n|];
    [|split; [done|by intros (? & ? & _)]].
  rewrite andb_true_iff, bool_decide_eq_true, forallb_forall. split.
  - intros [Hnd Hall]. exists n. split; [done|]. split; [done|].
    apply Forall_forall. intros c Hc. by apply Hall, list_elem_of_In.
  - intros (n' & [= <-] & Hnd & Hall). split; [done|].
    rewrite Forall_forall in Hall. intros c Hc. by apply Hall, list_elem_of_In.
Qed.


(** [flatten] reads only the nodes below [m] and their arrays. *)
Lemma flatten_ext d : ∀ h h' par m,
  tree_ok d h par m = true →
  (∀ x, below h m x → children <$> nodes h' !! x = children <$> nodes h !! x) →
  arrays h ⊆ arrays h' →
  ∀ fuel, flatten fuel h' m = flatten fuel h m.
Proof.
  induction d as [|d IH]; intros h h' par m Hok Hsame Harr [|fuel];
    try done.
  pose proof Hok as (n & Hm & _ & _ & Hcs & _)%tree_ok_S.
  pose proof (Hsame m (below_here _ _)) as Hm'. rewrite Hm in Hm'.
  destruct (nodes h' !! m) as [n'|] eqn:E; [|done]. injection Hm' as Hch.
  simpl. unfold load. rewrite E, Hm. simpl. rewrite Hch.
  rewrite (slice_of_mono h h') by done.
  apply flatten_children_ext. intros c Hc.
  destruct (tree_ok_child _ _ _ _ _ _ Hok Hm Hc) as [_ Hokc].
  eapply IH; [done| |done].
  intros x Hx. apply Hsame. by econstructor.
Qed.

Lemma concat_fmap_bind {A B} (f : A → list B) (l : list A) :
  concat (f <$> l) = l ≫= f.
Proof.
  induction l as [|a l IH]; [done|].
  rewrite fmap_cons, bind_cons. simpl. by rewrite IH.
Qed.


(** ** [lookup] *)




Lemma lookup_children_ext rec rec' cs :
  (∀ c, c ∈ cs → rec c = rec' c) →
  lookup_children rec cs = lookup_children rec' cs.
Proof.
  induction cs as [|c cs IH]; intros Hrec; simpl; [done|].
  rewrite Hrec by apply list_elem_of_here.
  destruct (rec' c) as [[x|]| |]; simpl; try done.
  apply IH. intros; apply Hrec; by apply list_elem_of_further.
Qed.


Lemma lookup_ext d : ∀ h h' par m t,
  tree_ok d h par m = true →
  (∀ x, below h m x → nodes h' !! x = nodes h !! x) →
  arrays h ⊆ arrays h' →
  ∀ fuel, lookup fuel h' m t = lookup fuel h m t.
Proof.
  induction d as [|d IH]; intros h h' par m t Hok Hsame Harr [|fuel];
    try done.
  pose proof Hok as (n & Hm & _ & _ & Hcs & _)%tree_ok_S.
  simpl. unfold load. rewrite (Hsame m) by constructor. rewrite Hm. simpl.
  destruct (existsb _ _); [done|].
  rewrite (slice_of_mono h h') by done.
  apply lookup_children_ext. intros c Hc.
  destruct (tree_ok_child _ _ _ _ _ _ Hok Hm Hc) as [_ Hokc].
  eapply IH; [done| |done].
  intros x Hx. apply Hsame. by econstructor.
Qed.

Lemma named_iff h t x :
  named h t x = true ↔
  ∃ n, nodes h !! x = Some n ∧ (typ n = t ∨ t ∈ aliases n).
Proof.
  unfold named. destruct (nodes h !! x) as [n|];
    [|split; [done|by intros (? & ? & _)]].
  rewrite existsb_exists. split.
  - intros (name & Hin & Heq). apply String.eqb_eq in Heq as ->.
    exists n. split; [done|].
    apply in_app_or in Hin as [Hin|[<-|[]]]; [right|by left].
    by apply list_elem_of_In.
  - intros (n' & [= <-] & [<-|Hin]).
    + exists (typ n). split; [|apply String.eqb_refl].
      apply in_or_app. right. by left.
    + exists t. split; [|apply String.eqb_refl].
      apply in_or_app. left. by apply list_elem_of_In.
Qed.

(** Whatever the heap, a node that [lookup] returns is below the start
    node and carries the name. *)
Lemma lookup_some fuel : ∀ h m t x,
  lookup fuel h m t = Done (Some x) → below h m x ∧ named h t x = true.
Proof.
  induction fuel as [|fuel IH]; intros h m t x Hrun; [done|].
  simpl in Hrun. unfold load in Hrun.
  destruct (nodes h !! m) as [n|] eqn:Hm; [|done]. simpl in Hrun.
  destruct (existsb _ _) eqn:Hex.
  { injection Hrun as <-. split; [constructor|]. unfold named. by rewrite Hm. }
  assert (∀ cs, (∀ c, c ∈ cs → c ∈ slice_of h (children n)) →
             lookup_children (λ c, lookup fuel h c t) cs = Done (Some x) →
             below h m x ∧ named h t x = true) as Hloop.
  { induction cs as [|c cs IHcs]; intros Hsub Hcs; [done|].
    simpl in Hcs.
    destruct (lookup fuel h c t) as [[y|]| |] eqn:Hc; simpl in Hcs; try done.
    - injection Hcs as ->. destruct (IH _ _ _ _ Hc) as [Hb Hn].
      split; [|done]. econstructor; [done| |done].
      apply Hsub, list_elem_of_here.
    - apply IHcs; [|done]. intros; by apply Hsub, list_elem_of_further. }
  by eapply Hloop.
Qed.

End listing.

(** * What the listing, the search and the construction guarantee *)

Section coverage.
Context `{Imports}.

(** Objects added to the heap change neither the listing of a
    well-formed tree nor a search in it. *)
Lemma incl_listing d h h' par m :
  tree_ok d h par m = true → h ⊑ h' →
  (∀ fuel, flatten fuel h' m = flatten fuel h m) ∧
  (∀ fuel t, lookup fuel h' m t = lookup fuel h m t).
Proof.
  intros Hok (Hnodes & _ & Harr).
  assert (∀ x, below h m x → nodes h' !! x = nodes h !! x) as Hsame.
  { intros x Hx. destruct (below_alloc _ _ _ Hx _ _ Hok) as [nx Hnx].
    rewrite Hnx. by eapply lookup_weaken. }
  split.
  - intros fuel. eapply flatten_ext; [done| |done].
    intros x Hx. by rewrite Hsame.
  - intros fuel t. by eapply lookup_ext.
Qed.




(** X10.  A match reads the tree and writes none of it: every node, map
    and array of the heap is unchanged afterwards, no array was made, the
    mutex is as it was, the tree is still well-formed, and [flatten] and
    [lookup] on the root return what they returned before. *)
Theorem match_read_only d h root raw lim fuel r h' tr :
  tree_ok d h None root = true →
  match_ fuel h root raw lim = Done (r, h', tr) →
  h ⊑ h' ∧ arrays h' = arrays h ∧ mu h' = mu h ∧
  tree_ok d h' None root = true ∧
  (∀ f, flatten f h' root = flatten f h root) ∧
  (∀ f t, lookup f h' root t = lookup f h root t).
Proof.
  intros Hok Hrun.
  destruct (match_done d h h root raw lim fuel r h' tr Hok) as
    (t & nt & lt & tested & _ & _ & _ & _ & Hincl & Harr & Hmu & _); [done..|].
  split; [done|]. split; [done|]. split; [done|].
  split; [by eapply tree_ok_mono|].
  by eapply incl_listing.
Qed.


(** X13.  Whatever the heap, a node that [lookup] returns for the name
    that the parser makes of a string is reached from the start node, it
    answers [Is] for that string with true, and [lookup] from it returns
    it again. *)
Theorem lookup_agrees_with_Is fuel h m x e :
  lookup fuel h m (mediatype (ParseMediaType e)) = Done (Some x) →
  below h m x ∧
  ∃ nx, nodes h !! x = Some nx ∧ Is nx e = true ∧
        ∀ f, lookup (S f) h x (mediatype (ParseMediaType e)) = Done (Some x).
Proof.
  intros Hrun. apply lookup_some in Hrun as [Hb Hn]. split; [done|].
  pose proof Hn as (nx & Hx & Hname)%named_iff.
  exists nx. split; [done|]. split.
  - apply Is_iff. destruct Hname as [<-|?]; [by left|by right].
  - intros f. simpl. unfold load. rewrite Hx. simpl.
    unfold named in Hn. rewrite Hx in Hn. by rewrite Hn.
Qed.

Lemma flatten_S fuel h m n :
  nodes h !! m = Some n →
  flatten (S fuel) h m =
    flatten_children (flatten fuel h) [m] (slice_of h (children n)).
Proof. intros Hm. simpl. unfold load. by rewrite Hm. Qed.


Lemma Extend_unlocked h m det mimestr ext als h' evs :
  Extend h m det mimestr ext als = Done (h', evs) → mu h = false.
Proof. destruct (mu h) eqn:E; [|done]. by rewrite Extend_locked. Qed.

(** The heap after [Extend], object by object. *)
Lemma Extend_heap h m n det mimestr ext als h' evs :
  nodes h !! m = Some n →
  Extend h m det mimestr ext als = Done (h', evs) →
  ∃ c a nc,
    nodes h !! c = None ∧ arrays h !! a = None ∧ m ≠ c ∧
    nodes h' !! m = Some (with_children (Some a) n) ∧
    nodes h' !! c = Some nc ∧
    typ nc = mediatype (ParseMediaType mimestr) ∧ aliases nc = als ∧
    extension nc = ext ∧ detector nc = det ∧ children nc = None ∧
    arrays h' !! a = Some (c :: slice_of h (children n)) ∧
    mu h' = false.
Proof.
  intros Hm Hrun.
  pose proof (Extend_unlocked _ _ _ _ _ _ _ _ Hrun) as Hmu.
  rewrite (Extend_eq h m n det mimestr ext als Hm Hmu) in Hrun.
  injection Hrun as <- _.
  assert (m ≠ fresh (dom (nodes h))) as Hmc.
  { intros E. rewrite E, fresh_lookup in Hm. done. }
  eexists (fresh (dom (nodes h))), (fresh (dom (arrays h))), _.
  split; [apply fresh_lookup|]. split; [apply fresh_lookup|].
  split; [done|]. simpl.
  split; [apply lookup_insert_eq|].
  split; [rewrite lookup_insert_ne by done; apply lookup_insert_eq|].
  simpl. do 5 (split; [done|]).
  split; [apply lookup_insert_eq|done].
Qed.

(** [Extend] at [m] leaves the trees of the children of [m] alone. *)
Lemma Extend_keeps_below h m n det mimestr ext als h' evs d par l c :
  nodes h !! m = Some n →
  Extend h m det mimestr ext als = Done (h', evs) →
  tree_ok d h par m = true → lineage h par l →
  c ∈ slice_of h (children n) →
  ∀ x, below h c x → nodes h' !! x = nodes h !! x.
Proof.
  intros Hm Hrun Hok Hl Hc x Hx.
  destruct (Extend_frame _ _ _ _ _ _ _ _ _ Hm Hrun) as (Hnodes & _).
  destruct d as [|d]; [done|].
  destruct (tree_ok_child _ _ _ _ _ _ Hok Hm Hc) as [_ Hokc].
  destruct (below_alloc _ _ _ Hx _ _ Hokc) as [nx Hnx].
  rewrite Hnx. apply Hnodes; [|done].
  by eapply (below_child_ne (S d)).
Qed.

(** X5.  After [Extend] at a node of a well-formed tree, [flatten] on
    that node lists the new node right behind it and then what it listed
    before, in the same order. *)
Theorem Extend_listed_next d h par m l det mimestr ext als h' evs :
  tree_ok d h par m = true → lineage h par l →
  Extend h m det mimestr ext als = Done (h', evs) →
  ∃ c rest,
    nodes h !! c = None ∧
    (∀ fuel, d ≤ fuel → flatten fuel h m = Done (m :: rest)) ∧
    (∀ fuel, S d ≤ fuel → flatten fuel h' m = Done (m :: c :: rest)).
Proof.
  intros Hok Hl Hrun. destruct d as [|d]; [done|].
  pose proof Hok as (n & Hm & _)%tree_ok_S.
  destruct (Extend_frame _ _ _ _ _ _ _ _ _ Hm Hrun) as (_ & _ & Harr).
  destruct (Extend_heap _ _ _ _ _ _ _ _ _ Hm Hrun)
    as (c & a & nc & Hc & Ha & Hmc & Hm' & Hc' & _ & _ & _ & _ & Hnc & Ha' & _).
  exists c, (slice_of h (children n) ≫= preorder d h).
  split; [done|]. split.
  { intros fuel Hfuel. rewrite (flatten_preorder _ _ _ _ Hok) by done.
    simpl. by rewrite Hm. }
  intros [|fuel] Hfuel; [lia|].
  rewrite (flatten_S _ _ _ _ Hm').
  change (slice_of h' (children (with_children (Some a) n)))
    with (default [] (arrays h' !! a)).
  rewrite Ha'. simpl default.
  assert (∀ x, x ∈ slice_of h (children n) → x ≠ c) as Hne.
  { intros x Hx ->. destruct (tree_ok_child _ _ _ _ _ _ Hok Hm Hx) as [Hdet _].
    unfold has_detector in Hdet. by rewrite Hc in Hdet. }
  rewrite (flatten_children_spec _
             (λ x, if decide (x = c) then [c] else preorder d h x)).
  - rewrite bind_cons, decide_True by done. simpl. do 3 f_equal.
    apply Forall_bind_ext, Forall_forall. intros x Hx.
    rewrite decide_False; [done|]. by apply Hne.
  - intros x Hx. apply elem_of_cons in Hx as [->|Hx].
    + rewrite decide_True by done. destruct fuel as [|fuel]; [lia|].
      rewrite (flatten_S _ _ _ _ Hc'), Hnc. done.
    + rewrite decide_False by (by apply Hne).
      destruct (tree_ok_child _ _ _ _ _ _ Hok Hm Hx) as [_ Hokx].
      rewrite (flatten_ext d h h' (Some m) x Hokx); [|  |done].
      * apply (flatten_preorder _ _ _ _ Hokx). lia.
      * intros y Hy. f_equal.
        by eapply (Extend_keeps_below h m n det mimestr ext als h' evs (S d)).
Qed.


(** X7.  [Extend] accepts a nil detector, and then every match that
    comes to the extended node panics: the new node is its first child
    and the call of its detector is a call of a nil function. *)
Theorem Extend_nil_detector h m n mimestr ext als h' evs :
  nodes h !! m = Some n →
  Extend h m None mimestr ext als = Done (h', evs) →
  ∀ fuel raw lim, match_ (S fuel) h' m raw lim = Panic.
Proof.
  intros Hm Hrun fuel raw lim.
  destruct (Extend_heap _ _ _ _ _ _ _ _ _ Hm Hrun)
    as (c & a & nc & Hc & Ha & Hmc & Hm' & Hc' & _ & _ & _ & Hdet & _ & Ha' & _).
  rewrite (match_S _ _ _ _ _ _ Hm').
  change (slice_of h' (children (with_children (Some a) n)))
    with (default [] (arrays h' !! a)).
  rewrite Ha'. simpl. unfold load. rewrite Hc'. simpl. by rewrite Hdet.
Qed.

Lemma Extend_distinct h m n det mimestr ext als h' evs :
  nodes h !! m = Some n →
  Extend h m det mimestr ext als = Done (h', evs) →
  ∀ d par x, tree_ok d h par x = true → distinct_children d h x = true →
             distinct_children (S d) h' x = true.
Proof.
  intros Hm Hrun.
  destruct (Extend_frame _ _ _ _ _ _ _ _ _ Hm Hrun) as (Hnodes & _ & Harr).
  destruct (Extend_heap _ _ _ _ _ _ _ _ _ Hm Hrun)
    as (c & a & nc & Hc & Ha & Hmc & Hm' & Hc' & _ & _ & _ & _ & Hnc & Ha' & _).
  assert (∀ d, distinct_children (S d) h' c = true) as Hleaf.
  { intros d. apply distinct_children_S. exists nc. split; [done|].
    rewrite Hnc. split; constructor. }
  induction d as [|d IH]; intros par x Hok Hdis; [done|].
  pose proof Hok as (nx & Hx & _ & _ & Hcs & Hkids)%tree_ok_S.
  apply distinct_children_S in Hdis as (nx' & Hx' & Hnd & Hall).
  rewrite Hx in Hx'. injection Hx' as <-.
  assert (Forall (λ y, distinct_children (S d) h' y = true)
                 (slice_of h (children nx))) as Hall'.
  { apply Forall_forall. intros y Hy.
    rewrite Forall_forall in Hall, Hkids.
    destruct (Hkids _ Hy) as [_ Hoky]. by eapply IH; [|apply Hall]. }
  apply distinct_children_S.
  destruct (decide (x = m)) as [->|Hne].
  - rewrite Hm in Hx. injection Hx as <-.
    exists (with_children (Some a) n). split; [done|].
    change (slice_of h' (children (with_children (Some a) n)))
      with (default [] (arrays h' !! a)).
    rewrite Ha'. simpl default. split.
    + constructor; [|done]. intros Hin.
      rewrite Forall_forall in Hkids. destruct (Hkids _ Hin) as [Hdet _].
      unfold has_detector in Hdet. by rewrite Hc in Hdet.
    + by constructor.
  - exists nx. split; [by apply Hnodes|].
    rewrite (slice_of_mono h h') by done. done.
Qed.

(** X8.  [Extend] with a detector keeps a well-formed tree well-formed,
    at most one level higher, wherever in the heap the extended node is;
    it keeps the lists of children free of duplicates, leaves the mutex
    released and every node allocated, so that [Extend] can be called
    again on any node. *)
Theorem Extend_keeps_tree d h root m n det mimestr ext als h' evs :
  tree_ok d h None root = true →
  nodes h !! m = Some n →
  Extend h m (Some det) mimestr ext als = Done (h', evs) →
  tree_ok (S d) h' None root = true ∧
  (distinct_children d h root = true →
   distinct_children (S d) h' root = true) ∧
  mu h' = false ∧
  (∀ x, is_Some (nodes h !! x) → is_Some (nodes h' !! x)) ∧
  ∀ m2 det2 mimestr2 ext2 als2,
    is_Some (nodes h' !! m2) →
    ∃ h2 evs2, Extend h' m2 det2 mimestr2 ext2 als2 = Done (h2, evs2).
Proof.
  intros Hok Hm Hrun.
  destruct (Extend_frame _ _ _ _ _ _ _ _ _ Hm Hrun) as (Hnodes & _).
  destruct (Extend_heap _ _ _ _ _ _ _ _ _ Hm Hrun)
    as (c & a & nc & _ & _ & _ & Hm' & _ & _ & _ & _ & _ & _ & _ & Hmu).
  split; [exact (Extend_tree_ok _ _ _ _ _ _ _ _ _ Hm Hrun _ _ _ Hok)|].
  split; [exact (Extend_distinct _ _ _ _ _ _ _ _ _ Hm Hrun _ _ _ Hok)|].
  split; [done|]. split.
  - intros x [nx Hx]. destruct (decide (x = m)) as [->|Hne]; [by eexists|].
    exists nx. by apply Hnodes.
  - intros m2 det2 mimestr2 ext2 als2 [n2 Hm2].
    pose proof (Extend_eq h' m2 n2 det2 mimestr2 ext2 als2 Hm2 Hmu) as Heq.
    simpl in Heq. by eexists _, _.
Qed.

(** [newMIME] on allocated children, object by object. *)
Lemma newMIME_node h t ext det cs :
  Forall (λ c, is_Some (nodes h !! c)) cs →
  ∃ m h' nm,
    newMIME h t ext det cs = Done (m, h') ∧
    nodes h !! m = None ∧
    nodes h' !! m = Some nm ∧
    typ nm = t ∧ aliases nm = [] ∧ extension nm = ext ∧ detector nm = det ∧
    parent nm = None ∧ map_of h' (params nm) = ∅ ∧
    slice_of h' (children nm) = cs ∧
    (∀ x, x ≠ m →
       nodes h' !! x =
         if decide (x ∈ cs) then with_parent (Some m) <$> nodes h !! x
         else nodes h !! x) ∧
    arrays h ⊆ arrays h'.
Proof.
  intros Hcs.
  set (pa := fresh (dom (maps h))).
  set (a := fresh (dom (arrays h))).
  set (m := fresh (dom (nodes h))).
  set (sl := match cs with [] => None | _ => Some a end).
  set (arrs := match cs with [] => arrays h | _ => <[a:=cs]> (arrays h) end).
  set (nm := mkMIME t [] (Some pa) ext det sl None).
  set (h3 := mkHeap (<[m:=nm]> (nodes h)) (<[pa:=∅]> (maps h)) arrs (mu h)).
  assert (nodes h !! m = None) as Hm by apply fresh_lookup.
  destruct (adopt_spec m cs h3) as (h4 & Hrun & Hmaps & Harrs & Hmu & Hnodes).
  { eapply Forall_impl; [done|]. intros c Hc. subst h3. simpl.
    apply lookup_insert_is_Some'. by right. }
  assert (newMIME h t ext det cs = Done (m, h4)) as Hnew.
  { clear -Hrun. unfold newMIME. subst h3 nm sl arrs a m pa.
    destruct cs as [|c0 cs0]; simpl in *.
    - by injection Hrun as <-.
    - unfold store, load in *. simpl in *.
      destruct (_ !! c0); simpl in *; [|done]. by rewrite Hrun. }
  assert (m ∉ cs) as Hmcs.
  { intros Hin. rewrite Forall_forall in Hcs.
    destruct (Hcs _ Hin) as [? ?]. congruence. }
  exists m, h4, nm. split; [done|]. split; [done|].
  split.
  { rewrite Hnodes, decide_False by done. subst h3. simpl.
    apply lookup_insert_eq. }
  do 5 (split; [done|]).
  split.
  { simpl. rewrite Hmaps. subst h3. simpl. by rewrite lookup_insert_eq. }
  split.
  { change (children nm) with sl. subst sl. unfold slice_of. rewrite Harrs.
    subst h3 arrs. simpl. destruct cs; [done|]. by rewrite lookup_insert_eq. }
  split.
  { intros x Hne. rewrite Hnodes. subst h3. simpl.
    by rewrite lookup_insert_ne. }
  rewrite Harrs. subst h3 arrs. simpl. destruct cs; [done|].
  apply insert_subseteq, fresh_lookup.
Qed.

(** X9.  [newMIME] over the roots of well-formed trees, each with a
    detector, returns a new node that heads a well-formed tree one level
    higher: it has the given type, extension and detector, no alias, an
    empty parameter map and no parent; its children are the given nodes
    in the given order, [Parent()] of each of them is the new node, no
    other node changes, and [flatten] lists the new node followed by what
    it listed for each child before, child after child. *)
Theorem newMIME_builds_tree h t ext det cs d :
  Forall (λ c, has_detector h c = true ∧ tree_ok d h None c = true) cs →
  ∃ m h' nm,
    newMIME h t ext det cs = Done (m, h') ∧
    nodes h !! m = None ∧
    tree_ok (S d) h' None m = true ∧
    nodes h' !! m = Some nm ∧
    typ nm = t ∧ aliases nm = [] ∧ extension nm = ext ∧ detector nm = det ∧
    parent nm = None ∧ map_of h' (params nm) = ∅ ∧
    slice_of h' (children nm) = cs ∧
    Forall (λ c, Parent h' c = Done (Some m)) cs ∧
    (∀ x, x ∉ cs → x ≠ m → nodes h' !! x = nodes h !! x) ∧
    ∃ ls, Forall2 (λ c lc, ∀ fuel, d ≤ fuel → flatten fuel h c = Done lc) cs ls ∧
          ∀ fuel, S d ≤ fuel → flatten fuel h' m = Done (m :: concat ls).
Proof.
  intros Hcs.
  assert (Forall (λ c, is_Some (nodes h !! c)) cs) as Halloc.
  { eapply Forall_impl; [done|]. intros c [Hdet _].
    unfold has_detector in Hdet. destruct (nodes h !! c); [by eexists|done]. }
  destruct (newMIME_tree_ok h t ext det cs d Hcs) as (m & h' & Hrun & Hm & Hok).
  destruct (newMIME_node h t ext det cs Halloc)
    as (m0 & h0 & nm & Hrun0 & _ & Hnm & Hty & Hal & Hext & Hdet & Hpar & Hps
        & Hsl & Hnodes & Harr).
  rewrite Hrun in Hrun0. injection Hrun0 as <- <-.
  exists m, h', nm. do 11 (split; [done|]).
  assert (∀ x, is_Some (nodes h !! x) → x ≠ m) as Hold.
  { intros x [? ?] ->. congruence. }
  split.
  { rewrite Forall_forall in Halloc. apply Forall_forall. intros c Hc.
    destruct (Halloc _ Hc) as [nc Hnc]. unfold Parent, load.
    rewrite Hnodes by (apply Hold; by eexists).
    by rewrite decide_True, Hnc by done. }
  split.
  { intros x Hx Hne. by rewrite Hnodes, decide_False by done. }
  exists (preorder d h <$> cs). split.
  { apply Forall2_fmap_r, Forall_Forall2_diag.
    eapply Forall_impl; [exact Hcs|]. intros c [_ Hc] fuel Hfuel.
    by eapply flatten_preorder. }
  intros [|fuel] Hfuel; [lia|].
  rewrite (flatten_S _ _ _ _ Hnm), Hsl.
  rewrite (flatten_children_spec _ (preorder d h)).
  { simpl. do 2 f_equal. by rewrite concat_fmap_bind. }
  intros c Hc. rewrite Forall_forall in Hcs. destruct (Hcs _ Hc) as [_ Hokc].
  rewrite (flatten_ext d h h' None c Hokc); [| |done].
  - apply (flatten_preorder _ _ _ _ Hokc). lia.
  - intros y Hy. rewrite Hnodes by (by eapply Hold, below_alloc).
    case_decide; [|done]. by destruct (nodes h !! y).
Qed.




Lemma lineage_nodes h p l :
  lineage h p l →
  Forall (λ x, ∃ nx, nodes h !! x = Some nx ∧
                     closed_map h (params nx) = true) l.
Proof.
  induction 1 as [|p n l Hn Hc _ IH]; constructor; [by exists n|done].
Qed.

Lemma lineage_frame h h' p l :
  lineage h p l →
  (∀ x nx, x ∈ l → nodes h !! x = Some nx → nodes h' !! x = Some nx) →
  maps h ⊆ maps h' →
  lineage h' p l.
Proof.
  induction 1 as [|p n l Hn Hc _ IH]; intros Hsame Hmaps; [constructor|].
  econstructor.
  - apply Hsame; [apply list_elem_of_here|done].
  - by eapply closed_map_mono.
  - apply IH; [|done]. intros x nx Hx. apply Hsame. by apply list_elem_of_further.
Qed.

(** X14.  A result that [match] has returned stays as it is when the
    tree is extended afterwards: [Extend] on a node of the tree changes
    no node that [Parent()] reaches from the result, and a caller reads
    from each of them the type, aliases, parameters and extension read
    before. *)
Theorem Extend_keeps_results d h root raw lim fuel r h1 tr
    m n det mimestr ext als h2 evs :
  tree_ok d h None root = true →
  match_ fuel h root raw lim = Done (r, h1, tr) →
  nodes h !! m = Some n →
  Extend h1 m det mimestr ext als = Done (h2, evs) →
  ∃ chain,
    head chain = Some r ∧
    (∀ f, length chain ≤ f →
       ancestors f h1 r = Done chain ∧ ancestors f h2 r = Done chain) ∧
    Forall (λ x, nodes h2 !! x = nodes h1 !! x ∧
                 ∃ v, view h1 x = Done v ∧ view h2 x = Done v) chain.
Proof.
  intros Hok Hrun Hm Hext.
  destruct (match_done d h h root raw lim fuel r h1 tr Hok) as
    (t & nt & lt & tested & _ & _ & Hlt & Hres & Hincl & _); [done..|].
  destruct (result_chain _ _ _ _ _ _ _ Hres Hlt) as (lr & Hlr & Hc & Hall).
  pose proof Hincl as (Hsub & _).
  pose proof (lookup_weaken _ _ _ _ Hm Hsub) as Hm1.
  destruct (Extend_frame _ _ _ _ _ _ _ _ _ Hm1 Hext) as (Hnodes & Hmaps & _).
  assert (Forall (λ x, nodes h !! x = None) lr) as Hfresh.
  { inversion Hlr as [|? nr lr0 _ _ _]; subst. simpl in Hall. constructor.
    - by destruct Hc as (? & ? & ? & _ & _ & ? & _).
    - clear -Hall. induction Hall as [|p q l l' Hpq _ IH]; constructor; [|done].
      by destruct Hpq as (? & ? & ? & _ & _ & ? & _). }
  assert (∀ x nx, x ∈ lr → nodes h1 !! x = Some nx → nodes h2 !! x = Some nx)
    as Hsame.
  { intros x nx Hx Hnx. apply Hnodes; [|done]. intros ->.
    rewrite Forall_forall in Hfresh. rewrite (Hfresh _ Hx) in Hm. done. }
  exists lr. split; [by inversion Hlr|]. split.
  - intros f Hf. split; apply lineage_ancestors; try done.
    by eapply lineage_frame.
  - pose proof (lineage_nodes _ _ _ Hlr) as Hlrn.
    rewrite Forall_forall in Hlrn. apply Forall_forall. intros x Hx.
    destruct (Hlrn _ Hx) as (nx & Hnx & Hcl).
    rewrite Hnx, (Hsame _ _ Hx Hnx). split; [done|].
    unfold view, load. rewrite Hnx, (Hsame _ _ Hx Hnx). simpl.
    rewrite (map_of_mono h1 h2) by done. by eexists.
Qed.

Lemma Extend_tests h m n det mimestr ext als h' evs raw lim :
  nodes h !! m = Some n →
  Extend h m det mimestr ext als = Done (h', evs) →
  (∀ y, rejects h raw lim y → rejects h' raw lim y) ∧
  (∀ y, accepts h raw lim y → accepts h' raw lim y).
Proof.
  intros Hm Hrun.
  destruct (Extend_frame _ _ _ _ _ _ _ _ _ Hm Hrun) as (Hnodes & _).
  destruct (Extend_heap _ _ _ _ _ _ _ _ _ Hm Hrun)
    as (c & a & nc & _ & _ & _ & Hm' & _).
  split; intros y (ny & dy & Hy & Hdy & Hres);
    (destruct (decide (y = m)) as [->|Hne];
     [rewrite Hm in Hy; injection Hy as <-;
      by exists (with_children (Some a) n), dy
     |exists ny, dy; split; [by apply Hnodes|done]]).
Qed.

(** A detector that rejects the input adds one test where the descent
    passes the extended node, and changes nothing else. *)
Lemma descent_Extend h m n det mimestr ext als h' evs raw lim :
  nodes h !! m = Some n →
  Extend h m (Some det) mimestr ext als = Done (h', evs) →
  det raw lim = false →
  ∀ x tested t, descent h raw lim x tested t →
  ∀ d par, tree_ok d h par x = true →
  ∃ tested', descent h' raw lim x tested' t.
Proof.
  intros Hm Hrun Hdet.
  destruct (Extend_frame _ _ _ _ _ _ _ _ _ Hm Hrun) as (Hnodes & _ & Harr).
  destruct (Extend_tests _ _ _ _ _ _ _ _ _ raw lim Hm Hrun) as [Hrej Hacc].
  destruct (Extend_heap _ _ _ _ _ _ _ _ _ Hm Hrun)
    as (c & a & nc & _ & _ & _ & Hm' & Hc' & _ & _ & _ & Hdc & _ & Ha' & _).
  assert (rejects h' raw lim c) as Hrc by (by exists nc, det).
  assert (slice_of h' (children (with_children (Some a) n)) =
          c :: slice_of h (children n)) as Hsl.
  { change (slice_of h' (children (with_children (Some a) n)))
      with (default [] (arrays h' !! a)). by rewrite Ha'. }
  induction 1 as [x nx Hx Hall|x nx before y after tested t Hx Hcs Hb Hy _ IH];
    intros [|d] par Hok; try done;
    pose proof Hok as (nx' & Hx' & _ & _ & Hclosed & _)%tree_ok_S;
    rewrite Hx in Hx'; injection Hx' as <-.
  - destruct (decide (x = m)) as [->|Hne].
    + rewrite Hm in Hx. injection Hx as <-.
      exists (c :: slice_of h (children n)). rewrite <-Hsl.
      apply descent_stop; [done|]. rewrite Hsl.
      constructor; [done|]. eapply Forall_impl; [done|]. apply Hrej.
    + exists (slice_of h (children nx)).
      rewrite <-(slice_of_mono h h') by done.
      apply descent_stop; [by apply Hnodes|].
      rewrite (slice_of_mono h h') by done.
      eapply Forall_impl; [done|]. apply Hrej.
  - assert (y ∈ slice_of h (children nx)) as Hin.
    { rewrite Hcs. apply elem_of_app. right. apply list_elem_of_here. }
    destruct (tree_ok_child _ _ _ _ _ _ Hok Hx Hin) as [_ Hoky].
    destruct (IH _ _ Hoky) as [tested' Hd'].
    apply (Forall_impl _ _ _ Hb) in Hrej.
    destruct (decide (x = m)) as [->|Hne].
    + rewrite Hm in Hx. injection Hx as <-.
      exists ((c :: before) ++ y :: tested').
      eapply descent_step; [done| |by constructor|by apply Hacc|done].
      rewrite Hsl, Hcs. done.
    + exists (before ++ y :: tested').
      eapply descent_step; [by apply Hnodes| |done|by apply Hacc|done].
      rewrite (slice_of_mono h h') by done. done.
Qed.

(** X15.  [Extend] changes nothing for the inputs that the new detector
    rejects: wherever in a well-formed tree the node is registered, a
    match of such an input shows the caller the type, aliases,
    parameters and extension it showed before the call. *)
Theorem Extend_rejecting_keeps_matches d h root m n det mimestr ext als
    h' evs raw lim :
  tree_ok d h None root = true →
  nodes h !! m = Some n →
  Extend h m (Some det) mimestr ext als = Done (h', evs) →
  det raw lim = false →
  ∃ v, ∀ fuel, 2 * S d ≤ fuel →
    view_of (match_ fuel h root raw lim) = Done v ∧
    view_of (match_ fuel h' root raw lim) = Done v.
Proof.
  intros Hok Hm Hrun Hdet.
  pose proof (Extend_tree_ok _ _ _ _ _ _ _ _ _ Hm Hrun _ _ _ Hok) as Hok'.
  destruct (Extend_frame _ _ _ _ _ _ _ _ _ Hm Hrun) as (Hnodes & Hmaps & _).
  destruct (Extend_heap _ _ _ _ _ _ _ _ _ Hm Hrun)
    as (c & a & nc & _ & _ & _ & Hm' & _).
  destruct (match_view d h h root raw lim Hok) as
    (t & nt & tested & Hdesc & Ht & Hview); [reflexivity|].
  destruct (match_view (S d) h' h' root raw lim Hok') as
    (t' & nt' & tested' & Hdesc' & Ht' & Hview'); [reflexivity|].
  destruct (descent_Extend _ _ _ _ _ _ _ _ _ raw lim Hm Hrun Hdet
              _ _ _ Hdesc _ _ Hok) as [tested'' Hdesc''].
  destruct (descent_unique _ _ _ _ _ _ Hdesc' _ _ Hdesc'') as [Heq _].
  subst t'.
  assert (closed_map h (params nt) = true) as Hclosed.
  { pose proof (descent_below _ _ _ _ _ _ Hdesc) as Hb.
    destruct (below_lineage _ _ _ Hb _ _ _ Hok (lineage_nil _)) as [pre Hl].
    pose proof (lineage_nodes _ _ _ Hl) as Hln.
    inversion Hl as [|? n0 l0 Hn0 Hc0 _]; subst. congruence. }
  assert (typ nt' = typ nt ∧ aliases nt' = aliases nt ∧
          params nt' = params nt ∧ extension nt' = extension nt)
    as (Hty & Hal & Hps & Hex).
  { destruct (decide (t = m)) as [->|Hne].
    - rewrite Hm' in Ht'. rewrite Hm in Ht. by simplify_eq.
    - rewrite (Hnodes _ _ Hne Ht) in Ht'. by simplify_eq. }
  exists (typ nt, aliases nt,
          (sniff (typ nt) raw).1 ∪ map_of h (params nt), extension nt).
  intros fuel Hfuel. split; [apply Hview; lia|].
  rewrite Hview' by done. rewrite Hty, Hal, Hps, Hex.
  by rewrite (map_of_mono h h').
Qed.

End coverage.

(** * The statements on the small trees *)
Section examples.
Import GoMime.

Lemma match_first_match_descent_witness :
  tree_ok 3 demo_heap None demo_root = true ∧
  ∃ t tested,
    descent demo_heap [] 3072 demo_root tested t ∧ demo_root ∉ tested.
Proof.
  split; [vm_compute; reflexivity|].
  destruct (match_first_match_descent demo_heap demo_root [] 3072)
    as [_ Htotal].
  destruct (Htotal 3) as (t & tested & r & h' & tr & Hd & Hroot & _);
    [vm_compute; reflexivity|].
  exists t, tested. split; assumption.
Defined.

Lemma match_total_witness :
  tree_ok 3 demo_heap None demo_root = true ∧
  ∃ r h' tr, match_ 6 demo_heap demo_root [] 3072 = Done (r, h', tr).
Proof.
  split; [vm_compute; reflexivity|].
  destruct (match_total 3 demo_heap demo_root [] 3072)
    as (r & h' & tr & chain & top & ntop & Hrun & _);
    [vm_compute; reflexivity|].
  exists r, h', tr. apply Hrun. simpl. lia.
Defined.

Lemma Extend_prepends_witness :
  nodes demo_heap !! demo_root = Some demo_root_node ∧ mu demo_heap = false ∧
  ∃ h' a,
    Extend demo_heap demo_root (Some always) "text/x-foo" ".foo" ["text/foo"] =
      Done (h', [ELock; EStoreChildren demo_root a true; EUnlock]).
Proof.
  split; [vm_compute; reflexivity|]. split; [vm_compute; reflexivity|].
  destruct (Extend_prepends demo_heap demo_root demo_root_node (Some always)
              "text/x-foo" ".foo" ["text/foo"])
    as (h' & c & a & nc & Hrun & _);
    [vm_compute; reflexivity|vm_compute; reflexivity|].
  exists h', a. exact Hrun.
Defined.

Lemma results_independent_witness :
  tree_ok 3 demo_heap None demo_root = true ∧
  match_ 6 demo_heap demo_root [] 3072 = Done run1 ∧
  match_ 6 run1.1.2 demo_root [xef; xbb; xbf] 3072 = Done run2 ∧
  ∃ h3 w2, set_param run2.1.2 run1.1.1 "charset" "utf-16" = Done h3 ∧
           view run2.1.2 run2.1.1 = Done w2 ∧ view h3 run2.1.1 = Done w2.
Proof.
  split; [vm_compute; reflexivity|]. split; [vm_compute; reflexivity|].
  split; [vm_compute; reflexivity|].
  destruct (results_independent 3 demo_heap demo_root [] 3072 [xef; xbb; xbf] 3072
              6 6 run1.1.1 run1.1.2 run1.2 run2.1.1 run2.1.2 run2.2
              "charset" "utf-16")
    as [(h3 & n1 & w2 & Hset & _ & _ & Hview & Hview' & _) _];
    [vm_compute; reflexivity..|].
  exists h3, w2. repeat split; assumption.
Defined.

Lemma charset_augmentation_witness :
  tree_ok 3 demo_heap None demo_root = true ∧
  TEXT ≠ HTML ∧ TEXT ≠ XML ∧ HTML ≠ XML ∧
  ∃ t tested, descent demo_heap [xef; xbb; xbf] 3072 demo_root tested t.
Proof.
  split; [vm_compute; reflexivity|].
  split; [discriminate|]. split; [discriminate|]. split; [discriminate|].
  destruct (charset_augmentation 3 demo_heap demo_root [xef; xbb; xbf] 3072)
    as (t & nt & tested & r & h' & nr & Hd & _);
    [vm_compute; reflexivity|discriminate..|].
  exists t, tested. exact Hd.
Defined.

Lemma result_parameters_witness :
  tree_ok 3 demo_heap None demo_root = true ∧
  ∃ t r h' ps, copies demo_heap demo_heap h' ps t r.
Proof.
  split; [vm_compute; reflexivity|].
  destruct (result_parameters 3 demo_heap demo_root [] 3072)
    as (t & nt & lt & tested & r & h' & tr & lr & _ & _ & _ & _ & _ & Hc & _);
    [vm_compute; reflexivity|].
  exists t, r, h', (sniff (typ nt) []).1. exact Hc.
Defined.

Lemma Is_parsed_witness :
  merr (ParseMediaType "text/html; charset=UTF-8") = false ∧
  Is html "text/html; charset=UTF-8" = true.
Proof.
  split; [vm_compute; reflexivity|].
  apply (Is_parsed html "text/html; charset=UTF-8");
    [vm_compute; reflexivity..|reflexivity].
Defined.

Lemma Is_unparsed_witness :
  merr (ParseMediaType "text/plain; charset") = true ∧
  Is plain "text/plain; charset" = true.
Proof.
  split; [vm_compute; reflexivity|].
  apply (Is_unparsed plain "text/plain; charset"); [vm_compute; reflexivity|].
  left. vm_compute. reflexivity.
Defined.

Lemma Extend_parse_failure_witness :
  nodes demo_heap !! demo_root = Some demo_root_node ∧ mu demo_heap = false ∧
  merr (ParseMediaType "not a type") = true ∧
  mparams (ParseMediaType "not a type") = None ∧
  ∃ h' a,
    Extend demo_heap demo_root (Some always) "not a type" ".x" [] =
      Done (h', [ELock; EStoreChildren demo_root a true; EUnlock]).
Proof.
  split; [vm_compute; reflexivity|]. split; [vm_compute; reflexivity|].
  split; [vm_compute; reflexivity|]. split; [vm_compute; reflexivity|].
  destruct (Extend_parse_failure demo_heap demo_root demo_root_node (Some always)
              "not a type" ".x" [])
    as (h' & c & a & nc & rest & Hrun & _);
    [vm_compute; reflexivity..|].
  exists h', a. exact Hrun.
Defined.

Lemma result_is_private_witness :
  tree_ok 3 demo_heap None demo_root = true ∧
  match_ 6 demo_heap demo_root [] 3072 = Done run1 ∧
  (∃ chain, lineage run1.1.2 (Some run1.1.1) chain) ∧
  ∃ h2 evs,
    Extend run1.1.2 run1.1.1 (Some always) "text/x-mine" ".mine" [] =
      Done (h2, evs) ∧
    demo_heap ⊑ h2.
Proof.
  split; [vm_compute; reflexivity|]. split; [vm_compute; reflexivity|].
  destruct (result_is_private 3 demo_heap demo_root [] 3072 6
              run1.1.1 run1.1.2 run1.2)
    as [(chain & Hchain & _) Hextend];
    [vm_compute; reflexivity..|].
  split; [exists chain; exact Hchain|].
  destruct (Hextend (Some always) "text/x-mine" ".mine" []) as [Hruns Hkeeps].
  destruct Hruns as (h2 & evs & Hrun); [vm_compute; reflexivity|].
  exists h2, evs. split; [exact Hrun|].
  destruct (Hkeeps h2 evs Hrun) as (_ & Hincl & _). exact Hincl.
Defined.

Lemma match_deterministic_witness :
  tree_ok 3 demo_heap None demo_root = true ∧
  match_ 6 demo_heap demo_root [] 3072 = Done run1 ∧
  match_ 6 run1.1.2 demo_root [] 3072 = Done run1_again ∧
  ∃ w, view run1.1.2 run1.1.1 = Done w ∧
       view run1_again.1.2 run1_again.1.1 = Done w.
Proof.
  split; [vm_compute; reflexivity|]. split; [vm_compute; reflexivity|].
  split; [vm_compute; reflexivity|].
  destruct (match_deterministic 3 demo_heap demo_root [] 3072 6 6
              run1.1.1 run1.1.2 run1.2
              run1_again.1.1 run1_again.1.2 run1_again.2)
    as (w & Hw1 & Hw2 & _);
    [vm_compute; reflexivity..|].
  exists w. split; assumption.
Defined.

(** The small tree sends every buffer past the rejecting first child of
    the root into the accepting second one, and stops at the JSON leaf;
    once [Extend] has put a text type in front, a buffer its detector
    accepts stops there instead, with the sniffed charset when the
    buffer starts with the byte-order mark and with no parameter at all
    when the buffer is empty. *)
Example demo_views :
  view_of (match_ 6 demo_heap demo_root [xef; xbb; xbf] 3072) =
    Done ("application/json", [], ∅, ".json") ∧
  view_of (match_ 6 texty_heap demo_root [xef; xbb; xbf] 3072) =
    Done ("text/plain", ["text/x-plain"], {["charset" := "utf-8"]}, ".txt") ∧
  view_of (match_ 6 texty_heap demo_root [] 3072) =
    Done ("text/plain", ["text/x-plain"], ∅, ".txt") ∧
  view_of (match_ 6 texty_heap demo_root [x41] 3072) =
    Done ("application/json", [], ∅, ".json").
Proof. repeat split; vm_compute; reflexivity. Qed.

(** Before [Extend] the match goes past the rejecting first child into
    the accepting second one; after [Extend] with an accepting detector
    it stops at the new node. *)
Example Extend_priority :
  slice_of demo_heap (children demo_root_node) = [4%positive; 3%positive] ∧
  rejects demo_heap [x41] 3072 4%positive ∧
  accepts demo_heap [x41] 3072 3%positive ∧
  view_of (match_ 6 demo_heap demo_root [x41] 3072) =
    Done ("application/json", [], ∅, ".json") ∧
  view_of (match_ 6 foo_heap demo_root [x41] 3072) =
    Done ("text/x-foo", ["text/foo"], ∅, ".foo").
Proof.
  split; [vm_compute; reflexivity|]. split.
  { exists (node_at demo_heap 4%positive), never.
    split; [|split]; vm_compute; reflexivity. }
  split.
  { exists (node_at demo_heap 3%positive), always.
    split; [|split]; vm_compute; reflexivity. }
  split; vm_compute; reflexivity.
Qed.

Example demo_Is :
  Is plain " text/plain ; charset=ISO-8859-1" = true ∧
  Is plain "TEXT/PLAIN" = true ∧
  Is plain "text/html" = false ∧
  Is (mkMIME "text/plain" ["text/x-plain"] None ".txt" None None None)
     "text/x-plain; q=1" = true.
Proof. repeat split; vm_compute; reflexivity. Qed.

(** The charset rule as stated fails on the extended tree: a buffer that
    the custom binary type matches gets the "charset" the type was
    registered with although the type is outside the three families, and
    the empty buffer, which the registered text type matches, gets the
    registered "charset" although the sniffer returns the empty label. *)
Lemma stated_charset_rule_fails :
  tree_ok 4 custom_heap None demo_root = true ∧
  view_of (match_ 8 custom_heap demo_root [x78] 3072) =
    Done ("application/x-custom", [], {["charset" := "binary"]}, ".bin") ∧
  family_sniffer "application/x-custom" = None ∧
  ¬ stated_charset_rule custom_heap demo_root [x78] 3072 8 ∧
  view_of (match_ 8 custom_heap demo_root [] 3072) =
    Done ("text/plain", [], {["charset" := "utf-8"]}, ".txt") ∧
  family_sniffer "text/plain" = Some FromPlain ∧
  FromPlain [] = EmptyString ∧
  ¬ stated_charset_rule custom_heap demo_root [] 3072 8.
Proof.
  split; [vm_compute; reflexivity|]. split; [vm_compute; reflexivity|].
  split; [vm_compute; reflexivity|]. split.
  { intros Hrule.
    specialize (Hrule run_bin.1.1 run_bin.1.2 run_bin.2
                  (node_at run_bin.1.2 run_bin.1.1)).
    vm_compute in Hrule. specialize (Hrule eq_refl eq_refl). discriminate. }
  split; [vm_compute; reflexivity|]. split; [vm_compute; reflexivity|].
  split; [vm_compute; reflexivity|].
  intros Hrule.
  specialize (Hrule run_txt.1.1 run_txt.1.2 run_txt.2
                (node_at run_txt.1.2 run_txt.1.1)).
  vm_compute in Hrule. specialize (Hrule eq_refl eq_refl). discriminate.
Qed.

(** [Is] does not fall back to the string as given: this one does not
    parse, differs from the type of the node, and is accepted. *)
Lemma stated_Is_differs :
  merr (ParseMediaType "text/plain; charset") = true ∧
  Is plain "text/plain; charset" = true ∧
  stated_Is plain "text/plain; charset" = false.
Proof. vm_compute. repeat split. Qed.

End examples.

(** * The listing, the search and the construction on the small trees *)
Section listed_examples.
Import GoMime.




Lemma Extend_listed_next_witness :
  tree_ok 3 demo_heap None demo_root = true ∧ lineage demo_heap None [] ∧
  Extend demo_heap demo_root (Some always) "text/x-foo" ".foo" ["text/foo"] =
    Done run_foo ∧
  ∃ c rest, flatten 3 demo_heap demo_root = Done (demo_root :: rest) ∧
            flatten 4 run_foo.1 demo_root = Done (demo_root :: c :: rest).
Proof.
  split; [vm_compute; reflexivity|]. split; [constructor|].
  split; [vm_compute; reflexivity|].
  destruct (Extend_listed_next 3 demo_heap None demo_root [] (Some always)
              "text/x-foo" ".foo" ["text/foo"] run_foo.1 run_foo.2)
    as (c & rest & _ & Hold & Hnew);
    [vm_compute; reflexivity|constructor|vm_compute; reflexivity|].
  exists c, rest. split; [apply Hold; lia|apply Hnew; lia].
Defined.


Lemma Extend_nil_detector_witness :
  nodes demo_heap !! demo_root = Some demo_root_node ∧
  Extend demo_heap demo_root None "text/x-nil" ".nil" [] = Done run_nil ∧
  match_ 6 run_nil.1 demo_root [] 3072 = Panic.
Proof.
  split; [vm_compute; reflexivity|]. split; [vm_compute; reflexivity|].
  apply (Extend_nil_detector demo_heap demo_root demo_root_node
           "text/x-nil" ".nil" [] run_nil.1 run_nil.2);
    vm_compute; reflexivity.
Defined.

Lemma Extend_keeps_tree_witness :
  tree_ok 3 demo_heap None demo_root = true ∧
  nodes demo_heap !! demo_root = Some demo_root_node ∧
  Extend demo_heap demo_root (Some always) "text/x-foo" ".foo" ["text/foo"] =
    Done run_foo ∧
  tree_ok 4 run_foo.1 None demo_root = true ∧
  distinct_children 4 run_foo.1 demo_root = true.
Proof.
  split; [vm_compute; reflexivity|]. split; [vm_compute; reflexivity|].
  split; [vm_compute; reflexivity|].
  destruct (Extend_keeps_tree 3 demo_heap demo_root demo_root demo_root_node
              always "text/x-foo" ".foo" ["text/foo"] run_foo.1 run_foo.2)
    as (Hok & Hdis & _); [vm_compute; reflexivity..|].
  split; [exact Hok|apply Hdis; vm_compute; reflexivity].
Defined.

Lemma newMIME_builds_tree_witness :
  Forall (λ c, has_detector twig_heap c = true ∧
               tree_ok 1 twig_heap None c = true) [twig_html; twig_json] ∧
  ∃ m h',
    newMIME twig_heap "text/plain" ".txt" (Some always) [twig_html; twig_json] =
      Done (m, h') ∧
    tree_ok 2 h' None m = true ∧
    Parent h' twig_html = Done (Some m) ∧ Parent h' twig_json = Done (Some m).
Proof.
  assert (Forall (λ c, has_detector twig_heap c = true ∧
                       tree_ok 1 twig_heap None c = true)
                 [twig_html; twig_json]) as Hcs.
  { constructor; [split; vm_compute; reflexivity|].
    constructor; [split; vm_compute; reflexivity|]. constructor. }
  split; [exact Hcs|].
  destruct (newMIME_builds_tree twig_heap "text/plain" ".txt" (Some always)
              [twig_html; twig_json] 1 Hcs)
    as (m & h' & nm & Hrun & _ & Hok & _ & _ & _ & _ & _ & _ & _ & _ & Hpar & _).
  exists m, h'. split; [exact Hrun|]. split; [exact Hok|].
  apply Forall_cons in Hpar as [Hp1 Hpar].
  apply Forall_cons in Hpar as [Hp2 _]. split; assumption.
Defined.

Lemma match_read_only_witness :
  tree_ok 3 demo_heap None demo_root = true ∧
  match_ 6 demo_heap demo_root [] 3072 = Done run1 ∧
  demo_heap ⊑ run1.1.2 ∧ tree_ok 3 run1.1.2 None demo_root = true.
Proof.
  split; [vm_compute; reflexivity|]. split; [vm_compute; reflexivity|].
  destruct (match_read_only 3 demo_heap demo_root [] 3072 6
              run1.1.1 run1.1.2 run1.2)
    as (Hincl & _ & _ & Hok & _); [vm_compute; reflexivity..|].
  split; assumption.
Defined.



Lemma lookup_agrees_with_Is_witness :
  lookup 3 demo_heap demo_root
    (mediatype (ParseMediaType "Text/Plain; charset=utf-8")) =
    Done (Some demo_txt) ∧
  ∃ nx, nodes demo_heap !! demo_txt = Some nx ∧
        Is nx "Text/Plain; charset=utf-8" = true.
Proof.
  split; [vm_compute; reflexivity|].
  destruct (lookup_agrees_with_Is 3 demo_heap demo_root demo_txt
              "Text/Plain; charset=utf-8")
    as (_ & nx & Hx & HIs & _); [vm_compute; reflexivity|].
  exists nx. split; assumption.
Defined.

Lemma Extend_keeps_results_witness :
  tree_ok 3 demo_heap None demo_root = true ∧
  match_ 6 demo_heap demo_root [] 3072 = Done run1 ∧
  nodes demo_heap !! demo_root = Some demo_root_node ∧
  Extend run1.1.2 demo_root (Some always) "text/x-foo" ".foo" ["text/foo"] =
    Done run_late ∧
  ∃ v, view run1.1.2 run1.1.1 = Done v ∧ view run_late.1 run1.1.1 = Done v.
Proof.
  split; [vm_compute; reflexivity|]. split; [vm_compute; reflexivity|].
  split; [vm_compute; reflexivity|]. split; [vm_compute; reflexivity|].
  destruct (Extend_keeps_results 3 demo_heap demo_root [] 3072 6
              run1.1.1 run1.1.2 run1.2 demo_root demo_root_node (Some always)
              "text/x-foo" ".foo" ["text/foo"] run_late.1 run_late.2)
    as (chain & Hhd & _ & Hall); [vm_compute; reflexivity..|].
  destruct chain as [|x chain]; [discriminate Hhd|].
  injection Hhd as ->.
  apply Forall_cons in Hall as [[_ Hv] _]. exact Hv.
Defined.

Lemma Extend_rejecting_keeps_matches_witness :
  tree_ok 3 demo_heap None demo_root = true ∧
  nodes demo_heap !! demo_root = Some demo_root_node ∧
  Extend demo_heap demo_root (Some never) "text/x-never" ".nvr" [] =
    Done run_never ∧
  never [] 3072%Z = false ∧
  ∃ v, view_of (match_ 8 demo_heap demo_root [] 3072) = Done v ∧
       view_of (match_ 8 run_never.1 demo_root [] 3072) = Done v.
Proof.
  split; [vm_compute; reflexivity|]. split; [vm_compute; reflexivity|].
  split; [vm_compute; reflexivity|]. split; [reflexivity|].
  destruct (Extend_rejecting_keeps_matches 3 demo_heap demo_root demo_root
              demo_root_node never "text/x-never" ".nvr" []
              run_never.1 run_never.2 [] 3072)
    as (v & Hv); [vm_compute; reflexivity..|].
  exists v. apply Hv. simpl. lia.
Defined.

(** The small tree lists its root, then the archive leaf, then the text
    node with its two leaves; a search goes through the same order and
    compares names as they are written, where [Is] compares what the
    parser makes of them. *)
Example demo_listing :
  (type_at demo_heap <$>
     match flatten 3 demo_heap demo_root with Done l => l | _ => [] end) =
    [Some "application/octet-stream"; Some "application/zip";
     Some "text/plain"; Some "text/html"; Some "application/json"] ∧
  lookup 3 demo_heap demo_root "application/json" ≠ Done None ∧
  lookup 3 demo_heap demo_root "Application/JSON" = Done None ∧
  lookup 3 demo_heap demo_root "text/markdown" = Done None ∧
  lookup 4 run_foo.1 demo_root "text/foo" =
    lookup 4 run_foo.1 demo_root "text/x-foo".
Proof.
  split; [vm_compute; reflexivity|]. split; [vm_compute; discriminate|].
  split; [vm_compute; reflexivity|]. split; vm_compute; reflexivity.
Qed.

End listed_examples.
